(** * translate.py: batching, bounded-retry translation and writeback

    A shallow embedding of [src/translate.py] and the properties of its
    batch-translation pipeline.

    - Python [str] is a list of Unicode code points, [len] is [length].
    - Python [int] is [Z].
    - A paragraph object is represented by its identity (what [id()] returns);
      the texts of the paragraphs live in a store keyed by that identity.
    - The [accum] dict is a [gmap] from identities to lists of strings.
    - The generator [batcher] is a function to the list of the batches it
      yields.  Its inner [while] loop need not terminate (it does not when
      [max_total_chars <= 0]); it runs on fuel and the result is [None] when
      the fuel does not suffice.  [batcher_yielded] gives the batches yielded
      within the fuel also then: the prefixes of what a consumer of the
      generator receives from a run that does not end.
    - The remote service is an oracle giving the outcome of each HTTP request;
      posting, warning and sleeping are recorded in a trace.
    - Reading and saving the document, the progress bar and the texts of the
      messages printed are left out. *)

From Stdlib Require Import QArith.
From stdpp Require Import numbers list gmap.

Open Scope Z_scope.

(** ** Strings *)

(** A Unicode code point, and a Python [str]. *)
Abbreviation codepoint := N (only parsing).
Abbreviation str := (list N) (only parsing).

(** [str.isspace] of CPython on one code point ([_PyUnicode_IsWhitespace]). *)
Definition isspace (c : codepoint) : bool :=
  ((9 <=? c) && (c <=? 13) || (28 <=? c) && (c <=? 32)
   || (c =? 133) || (c =? 160) || (c =? 5760)
   || (8192 <=? c) && (c <=? 8202)
   || (c =? 8232) || (c =? 8233) || (c =? 8239) || (c =? 8287)
   || (c =? 12288))%N.

Fixpoint lstrip (s : str) : str :=
  match s with
  | c :: s' => if isspace c then lstrip s' else s
  | [] => []
  end.

Definition rstrip (s : str) : str := reverse (lstrip (reverse s)).

Definition strip (s : str) : str := rstrip (lstrip s).

(** [len(s)] as a Python integer. *)
Definition len {A} (l : list A) : Z := Z.of_nat (length l).

(** An index of a slice, as [PySlice_AdjustIndices] adjusts it for a
    sequence of length [n] and step 1: a negative index counts from the end,
    and the result is clipped to [0..n]. *)
Definition adjust_index (n i : Z) : Z :=
  if i <? 0 then Z.max (i + n) 0 else Z.min i n.

(** [s[lo:hi]] *)
Definition slice (s : str) (lo hi : Z) : str :=
  let lo' := adjust_index (len s) lo in
  let hi' := adjust_index (len s) hi in
  take (Z.to_nat (hi' - lo')) (drop (Z.to_nat lo') s).

(** ** Configuration *)

Definition MAX_TOTAL_CHARS_PER_BATCH : Z := 20000.
Definition MAX_ITEMS_PER_BATCH : Z := 50.
Definition RETRY_LIMIT : nat := 4.

(** ** Paragraph references *)

(** A paragraph object, given by its identity. *)
Abbreviation Paragraph := Z (only parsing).

(** [id(p)] *)
Definition obj_id (p : Paragraph) : Z := p.

(** [original_text] is [None] for Python's [None]. *)
Record ParaRef := mkParaRef {
  paragraph : Paragraph;
  original_text : option str
}.

#[global] Instance ParaRef_eq_dec : EqDecision ParaRef.
Proof. solve_decision. Defined.

(** [_is_blank(s)]: [(s is None) or (s.strip() == "")] *)
Definition _is_blank (s : option str) : bool :=
  match s with
  | None => true
  | Some s => bool_decide (strip s = [])
  end.

(** ** The batcher *)

Abbreviation Batch := (list ParaRef) (only parsing).

(** [it.original_text or ""] *)
Definition text_or_empty (it : ParaRef) : str :=
  match original_text it with
  | Some s => s
  | None => []
  end.

(** [if batch: yield batch] *)
Definition yield_if_nonempty (batch : Batch) : list Batch :=
  match batch with
  | [] => []
  | _ => [batch]
  end.

(** The loop [while start < n: ...] of lines 75-80; it yields one singleton
    batch per iteration.  [None]: the fuel ran out before the loop ended. *)
Fixpoint while_chunks (fuel : nat) (p : Paragraph) (txt : str)
    (n max_total_chars start : Z) : option (list Batch) :=
  match fuel with
  | O => None
  | S fuel' =>
      if start <? n then
        let chunk := slice txt start (start + max_total_chars) in
        rest ← while_chunks fuel' p txt n max_total_chars
                 (start + max_total_chars);
        Some ([mkParaRef p (Some chunk)] :: rest)
      else Some []
  end.

(** The local variables [batch] and [total]. *)
Definition Pending : Type := Batch * Z.

(** One iteration of [for it in items]: the batches it yields and the
    pending batch after it. *)
Definition batcher_step (fuel : nat) (max_total_chars max_items : Z)
    (st : Pending) (it : ParaRef) : option (list Batch * Pending) :=
  let '(batch, total) := st in
  let txt := text_or_empty it in
  let n := len txt in
  if _is_blank (Some txt) then Some ([], st)
  else if n >? max_total_chars then
    chunks ← while_chunks fuel (paragraph it) txt n max_total_chars 0;
    Some (yield_if_nonempty batch ++ chunks,
          match batch with [] => st | _ => ([], 0) end)
  else if (len batch + 1 >? max_items) || (total + n >? max_total_chars) then
    Some (yield_if_nonempty batch, ([it], n))
  else
    Some ([], (batch ++ [it], total + n)).

Fixpoint batcher_loop (fuel : nat) (max_total_chars max_items : Z)
    (st : Pending) (items : list ParaRef) : option (list Batch) :=
  match items with
  | [] => Some (yield_if_nonempty (fst st))
  | it :: items' =>
      '(out, st') ← batcher_step fuel max_total_chars max_items st it;
      outs ← batcher_loop fuel max_total_chars max_items st' items';
      Some (out ++ outs)
  end.

(** [batcher(items, max_total_chars, max_items)], as the list of the
    batches the generator yields. *)
Definition batcher (fuel : nat) (items : list ParaRef)
    (max_total_chars max_items : Z) : option (list Batch) :=
  batcher_loop fuel max_total_chars max_items ([], 0) items.

(** *** The batches yielded so far *)

(** The generator again, for the runs that do not end as well: what it has
    yielded when the fuel runs out or it ends, and whether it ended.  The
    loop of lines 75-80: *)
Fixpoint while_chunks_yielded (fuel : nat) (p : Paragraph) (txt : str)
    (n max_total_chars start : Z) : list Batch * bool :=
  match fuel with
  | O => ([], false)
  | S fuel' =>
      if start <? n then
        let chunk := slice txt start (start + max_total_chars) in
        let '(rest, ended) :=
          while_chunks_yielded fuel' p txt n max_total_chars
            (start + max_total_chars) in
        ([mkParaRef p (Some chunk)] :: rest, ended)
      else ([], true)
  end.

(** One iteration of [for it in items]: the batches yielded, and the pending
    batch after it if the iteration ended. *)
Definition batcher_step_yielded (fuel : nat) (max_total_chars max_items : Z)
    (st : Pending) (it : ParaRef) : list Batch * option Pending :=
  let '(batch, total) := st in
  let txt := text_or_empty it in
  let n := len txt in
  if _is_blank (Some txt) then ([], Some st)
  else if n >? max_total_chars then
    let '(chunks, ended) :=
      while_chunks_yielded fuel (paragraph it) txt n max_total_chars 0 in
    (yield_if_nonempty batch ++ chunks,
     if ended then Some (match batch with [] => st | _ => ([], 0) end)
     else None)
  else if (len batch + 1 >? max_items) || (total + n >? max_total_chars) then
    (yield_if_nonempty batch, Some ([it], n))
  else
    ([], Some (batch ++ [it], total + n)).

Fixpoint batcher_loop_yielded (fuel : nat) (max_total_chars max_items : Z)
    (st : Pending) (items : list ParaRef) : list Batch * bool :=
  match items with
  | [] => (yield_if_nonempty (fst st), true)
  | it :: items' =>
      match batcher_step_yielded fuel max_total_chars max_items st it with
      | (out, Some st') =>
          let '(outs, ended) :=
            batcher_loop_yielded fuel max_total_chars max_items st' items' in
          (out ++ outs, ended)
      | (out, None) => (out, false)
      end
  end.

(** The batches that [batcher(items, max_total_chars, max_items)] yields
    within the fuel, and whether the generator is exhausted. *)
Definition batcher_yielded (fuel : nat) (items : list ParaRef)
    (max_total_chars max_items : Z) : list Batch * bool :=
  batcher_loop_yielded fuel max_total_chars max_items ([], 0) items.

(** ** The translation client *)

(** An element of a JSON array, as far as [str(x)] looks at it. *)
Inductive JsonElem :=
  | JString (s : str)
  | JOther (shown : str).  (* not a string; [shown] is what [str(x)] gives *)

(** [str(x)] *)
Definition py_str (x : JsonElem) : str :=
  match x with
  | JString s => s
  | JOther shown => shown
  end.

(** [data.get("translatedText")] *)
Inductive TranslatedText :=
  | TTList (xs : list JsonElem)
  | TTStr (s : str)
  | TTOther.               (* no such key, null, a number, an object *)

(** What one [session.post] leads to. *)
Inductive Response :=
  | PostFails              (* [session.post] raises: no connection, timeout *)
  | BadStatus              (* [r.raise_for_status()] raises *)
  | BadJson                (* [r.json()] raises *)
  | NotAnObject            (* [data.get] raises: the JSON is not an object *)
  | Data (translated : TranslatedText).

Inductive Exn :=
  | RequestException
  | HTTPError
  | JSONDecodeError
  | AttributeError
  | ValueError.

(** The body of the [try] (lines 114-132): a list to return, or the
    exception raised. *)
Definition try_body (r : Response) (texts : list str) : Exn + list str :=
  match r with
  | PostFails => inl RequestException
  | BadStatus => inl HTTPError
  | BadJson => inl JSONDecodeError
  | NotAnObject => inl AttributeError
  | Data (TTList xs) => inr (py_str <$> xs)
  | Data (TTStr s) => if len texts =? 1 then inr [s] else inl ValueError
  | Data TTOther => inl ValueError
  end.

(** The remote service: the outcome of the request with a given number
    (counted from 0 over the whole session) and payload ["q"]. *)
Definition Session := nat → list str → Response.

Inductive Event :=
  | Posted (q : list str)
  | Warned (attempt : nat)
  | Slept (seconds : Q)
  | Errored.

Record World := mkWorld {
  requests : nat;          (* requests posted so far *)
  trace : list Event
}.

Definition emit (e : Event) (w : World) : World :=
  mkWorld (requests w) (trace w ++ [e]).

Definition post (q : list str) (w : World) : World :=
  mkWorld (S (requests w)) (trace w ++ [Posted q]).

(** [1.5 * attempt] *)
Definition sleep_s (attempt : nat) : Q := (3 # 2) * inject_Z (Z.of_nat attempt).

(** [for attempt in ...] of lines 112-138, then lines 140-142. *)
Fixpoint attempt_loop (session : Session) (texts : list str)
    (attempts : list nat) (w : World) : list str * World :=
  match attempts with
  | [] => (texts, emit Errored w)
  | attempt :: attempts' =>
      match try_body (session (requests w) texts) texts with
      | inr result => (result, post texts w)
      | inl _ =>
          attempt_loop session texts attempts'
            (emit (Slept (sleep_s attempt)) (emit (Warned attempt) (post texts w)))
      end
  end.

(** [libretranslate_translate_batch(texts, session)] *)
Definition libretranslate_translate_batch (texts : list str)
    (session : Session) (w : World) : list str * World :=
  attempt_loop session texts (seq 1 RETRY_LIMIT) w.

(** ** Accumulation and writeback *)

(** [accum.setdefault(key, []).append(ttxt)] *)
Definition accum_append (accum : gmap Z (list str)) (item : ParaRef * str)
    : gmap Z (list str) :=
  let key := obj_id (paragraph item.1) in
  <[key := default [] (accum !! key) ++ [item.2]]> accum.

(** [for batch in batcher(...)] of lines 168-177.  No item of a batch has
    [original_text = None] (see [batcher_items_have_text]), so
    [b.original_text] is read through [text_or_empty]. *)
Fixpoint translate_batches (session : Session) (batches : list Batch)
    (accum : gmap Z (list str)) (w : World) : gmap Z (list str) * World :=
  match batches with
  | [] => (accum, w)
  | batch :: batches' =>
      let batch_texts := text_or_empty <$> batch in
      let '(translated_list, w') :=
        libretranslate_translate_batch batch_texts session w in
      translate_batches session batches'
        (foldl accum_append accum (zip batch translated_list)) w'
  end.

(** The state of the writeback loop: the dict [accum], the texts of the
    paragraphs of the document, and the log of the texts set. *)
Record Writeback := mkWriteback {
  wb_accum : gmap Z (list str);
  wb_doc : gmap Z str;
  wb_commits : list (Paragraph * str)
}.

(** One iteration of [for pref in translatable] (lines 182-186);
    [clear_and_set_paragraph_text] sets [paragraph.text]. *)
Definition writeback_step (st : Writeback) (pref : ParaRef) : Writeback :=
  let key := obj_id (paragraph pref) in
  match wb_accum st !! key with
  | Some chunks =>
      let final_text := concat chunks in
      mkWriteback (wb_accum st)
        (<[paragraph pref := final_text]> (wb_doc st))
        (wb_commits st ++ [(paragraph pref, final_text)])
  | None => st
  end.

Definition not_blank (p : ParaRef) : Prop := _is_blank (original_text p) = false.

#[global] Instance not_blank_dec p : Decision (not_blank p).
Proof. unfold not_blank. apply _. Defined.

Record Run := mkRun {
  run_batches : list Batch;
  run_accum : gmap Z (list str);     (* [accum] when the function ends *)
  run_doc : gmap Z str;              (* the paragraph texts saved *)
  run_commits : list (Paragraph * str);
  run_world : World
}.

(** [translate_docx], from [all_paras] on; [doc] holds the paragraph texts
    of the document read. *)
Definition translate_docx (fuel : nat) (session : Session)
    (all_paras : list ParaRef) (doc : gmap Z str) (w : World) : option Run :=
  let translatable := filter not_blank all_paras in
  batches ← batcher fuel translatable
               MAX_TOTAL_CHARS_PER_BATCH MAX_ITEMS_PER_BATCH;
  let '(accum, w') := translate_batches session batches ∅ w in
  let st := foldl writeback_step (mkWriteback accum doc []) translatable in
  Some (mkRun batches (wb_accum st) (wb_doc st) (wb_commits st) w').

(** ** Auxiliary notions used in the statements *)

(** The singleton batch of a chunk. *)
Definition chunk_batch (p : Paragraph) (chunk : str) : Batch :=
  [mkParaRef p (Some chunk)].

(** The total payload of a batch: the lengths of its texts, added up. *)
Definition payload (b : Batch) : Z :=
  foldr (λ x acc, len (text_or_empty x) + acc) 0 b.

(** Both limits of a batch. *)
Definition within_limits (max_total_chars max_items : Z) (b : Batch) : Prop :=
  payload b ≤ max_total_chars ∧ len b ≤ max_items.



(** [ps] are the items a unit goes into the batches as: the unit itself, or
    its chunks in order. *)
Definition pieces_of (it : ParaRef) (ps : list ParaRef) : Prop :=
  ps ≠ []
  ∧ Forall (λ x, paragraph x = paragraph it ∧ is_Some (original_text x)) ps
  ∧ concat (text_or_empty <$> ps) = text_or_empty it.

(** The invariant of the pending batch. *)
Definition pending_ok (max_total_chars max_items : Z) (st : Pending) : Prop :=
  payload st.1 = st.2
  ∧ (st.1 ≠ [] → within_limits max_total_chars max_items st.1).

(** What one failed attempt leaves in the trace. *)
Definition failed_attempt (texts : list str) (attempt : nat) : list Event :=
  [Posted texts; Warned attempt; Slept (sleep_s attempt)].

(** The request with number [k] fails: the [try] body raises. *)
Definition attempt_fails (session : Session) (texts : list str) (k : nat) : Prop :=
  ∃ e, try_body (session k texts) texts = inl e.

(** The outcomes of a request that count as a failure: an exception in
    [session.post], [raise_for_status], [r.json] or [data.get], and a
    ["translatedText"] that is neither a list nor, for exactly one text, a
    string. *)
Definition raises (r : Response) (texts : list str) : Prop :=
  match r with
  | PostFails | BadStatus | BadJson | NotAnObject => True
  | Data (TTList _) => False
  | Data (TTStr _) => length texts ≠ 1%nat
  | Data TTOther => True
  end.

(** The translated texts in the order they reach [accum], each with the
    batch item it is zipped with. *)
Fixpoint arrivals (session : Session) (batches : list Batch) (w : World)
    : list (ParaRef * str) :=
  match batches with
  | [] => []
  | batch :: batches' =>
      let '(translated_list, w') :=
        libretranslate_translate_batch (text_or_empty <$> batch) session w in
      zip batch translated_list ++ arrivals session batches' w'
  end.

(** The arrivals at the paragraph [p]. *)
Definition arrivals_at (p : Paragraph) (arr : list (ParaRef * str))
    : list (ParaRef * str) :=
  filter (λ a, paragraph a.1 = p) arr.

(** The units at the paragraph [p]. *)
Definition units_at (p : Paragraph) (units : list ParaRef) : list ParaRef :=
  filter (λ u, paragraph u = p) units.

(** The commit a unit gets in the writeback pass, if its key is in [accum]. *)
Definition commit_of (accum : gmap Z (list str)) (u : ParaRef) : option (Z * str) :=
  (λ chunks, (paragraph u, concat chunks)) <$> accum !! obj_id (paragraph u).

(** ** Inputs of the examples *)

Definition w0 : World := mkWorld 0 [].

(** A service that cannot be reached. *)
Definition unreachable : Session := λ _ _, PostFails.

(** A service that answers every request with an empty list. *)
Definition empty_answer : Session := λ _ _, Data (TTList []).

(** A service that answers every request with a list of one string. *)
Definition one_answer : Session := λ _ _, Data (TTList [JString [120%N]]).

(** ["Halo dunia"] *)
Definition halo_dunia : list N := [72; 97; 108; 111; 32; 100; 117; 110; 105; 97]%N.

(** ["x" * n] *)
Definition xs (n : N) : list N := replicate (N.to_nat n) 120%N.

Definition unit_a : ParaRef := mkParaRef 1 (Some [97%N]).
Definition unit_b : ParaRef := mkParaRef 2 (Some [98%N]).
Definition unit_halo : ParaRef := mkParaRef 2 (Some halo_dunia).

(** A second unit at the paragraph of [unit_a]. *)
Definition unit_a' : ParaRef := mkParaRef 1 (Some [98%N]).

(** ** Further notions *)

(** The items that a non-blank unit goes into the batches as, for the limit
    [max_total_chars]: the unit itself when it fits, and else the chunks that
    the splitting loop yields. *)
Definition pieces_at_limit (fuel : nat) (max_total_chars : Z)
    (it : ParaRef) (ps : list ParaRef) : Prop :=
  if len (text_or_empty it) >? max_total_chars
  then while_chunks fuel (paragraph it) (text_or_empty it)
         (len (text_or_empty it)) max_total_chars 0
       = Some ((λ x, [x]) <$> ps)
  else ps = [it].

(** The seconds slept in a trace, added up. *)
Definition slept_total (tr : list Event) : Q :=
  foldr (λ e acc, match e with Slept s => (s + acc)%Q | _ => acc end) 0%Q tr.

(** The payloads of the requests posted in a trace. *)
Definition posted (tr : list Event) : list (list str) :=
  omap (λ e, match e with Posted q => Some q | _ => None end) tr.

(** A service that answers every request with the list of the translations
    [f] of the texts sent. *)
Definition translating (f : list N → list N) : Session :=
  λ _ texts, Data (TTList (JString ∘ f <$> texts)).

(** A service that answers every request with the one string [s]. *)
Definition string_answer (s : list N) : Session := λ _ _, Data (TTStr s).

(** ** The document *)

(** What [iter_all_paragraphs] reads of a document: [doc.paragraphs],
    [doc.tables], [table.rows], [row.cells], [cell.paragraphs] and, of a
    paragraph object [p], its identity and [p.text]. *)
Record ParagraphObj := mkParagraphObj {
  par_id : Z;
  par_text : list N
}.

Record Cell := mkCell { cell_paragraphs : list ParagraphObj }.
Record Row := mkRow { cells : list Cell }.
Record Table := mkTable { rows : list Row }.

Record Document := mkDocument {
  paragraphs : list ParagraphObj;
  tables : list Table
}.

(** [ParaRef(p, p.text)] *)
Definition ref_of (p : ParagraphObj) : ParaRef :=
  mkParaRef (par_id p) (Some (par_text p)).

(** [iter_all_paragraphs(doc)], as the list of what the generator yields. *)
Definition iter_all_paragraphs (doc : Document) : list ParaRef :=
  (ref_of <$> paragraphs doc)
  ++ (table ← tables doc; row ← rows table; cell ← cells row;
      ref_of <$> cell_paragraphs cell).

(** The texts of the paragraph objects of a document, by identity. *)
Definition doc_texts (doc : Document) : gmap Z (list N) :=
  list_to_map ((λ u, (paragraph u, text_or_empty u)) <$> iter_all_paragraphs doc).

(** * Properties *)

(** ** Blank texts *)

Lemma lstrip_nil_iff (s : str) :
  lstrip s = [] ↔ Forall (λ c, isspace c = true) s.
Proof.
  induction s as [|c s IH]; simpl.
  - split; [constructor | reflexivity].
  - destruct (isspace c) eqn:E.
    + rewrite IH. split; [by constructor | by inversion 1].
    + split; [discriminate | inversion 1; congruence].
Qed.

Lemma lstrip_idemp (s : str) : lstrip (lstrip s) = lstrip s.
Proof.
  induction s as [|c s IH]; simpl; [done|].
  destruct (isspace c) eqn:E; [done|]. simpl. by rewrite E.
Qed.

Lemma strip_nil_iff (s : str) :
  strip s = [] ↔ Forall (λ c, isspace c = true) s.
Proof.
  unfold strip, rstrip. rewrite <- lstrip_nil_iff. split.
  - intros H. apply (f_equal reverse) in H.
    rewrite reverse_involutive, reverse_nil in H.
    apply lstrip_nil_iff in H. rewrite Forall_reverse in H.
    apply lstrip_nil_iff in H. by rewrite lstrip_idemp in H.
  - intros ->. reflexivity.
Qed.

(** A text is blank exactly when it is [None] or has only whitespace. *)
Lemma is_blank_spec (o : option str) :
  _is_blank o = true ↔
  o = None ∨ ∃ s, o = Some s ∧ Forall (λ c, isspace c = true) s.
Proof.
  destruct o as [s|]; simpl.
  - rewrite bool_decide_eq_true, strip_nil_iff. split.
    + intros H. right. by exists s.
    + intros [?|(s' & [= <-] & H)]; [discriminate | exact H].
  - split; [by left | reflexivity].
Qed.

Lemma is_blank_text_or_empty (it : ParaRef) :
  _is_blank (Some (text_or_empty it)) = _is_blank (original_text it).
Proof. unfold text_or_empty. by destruct (original_text it). Qed.

Lemma not_blank_has_text (it : ParaRef) :
  not_blank it → original_text it = Some (text_or_empty it) ∧ 0 < len (text_or_empty it).
Proof.
  unfold not_blank, text_or_empty, len.
  destruct (original_text it) as [[|c s]|]; simpl; try discriminate.
  intros _. split; [reflexivity | lia].
Qed.

(** ** Slices *)

Lemma slice_take_drop (s : str) (a m : Z) :
  0 ≤ a → 0 ≤ m →
  slice s a (a + m) = take (Z.to_nat m) (drop (Z.to_nat a) s).
Proof.
  intros Ha Hm. unfold slice, adjust_index, len.
  destruct (Z.ltb_spec a 0); [lia|].
  destruct (Z.ltb_spec (a + m) 0); [lia|].
  destruct (Z_le_gt_dec (Z.of_nat (length s)) a) as [Hge|Hlt].
  - rewrite (drop_ge s (Z.to_nat a)) by lia.
    rewrite (drop_ge s (Z.to_nat (a `min` _))) by lia.
    by rewrite !take_nil.
  - rewrite (Z.min_l a) by lia.
    destruct (Z_le_gt_dec (a + m) (Z.of_nat (length s))).
    + rewrite Z.min_l by lia. f_equal. lia.
    + rewrite Z.min_r by lia.
      rewrite !take_ge; [done | rewrite length_drop; lia | rewrite length_drop; lia].
Qed.

Lemma slice_length (s : str) (a m : Z) :
  0 ≤ a → 0 ≤ m → len (slice s a (a + m)) = Z.max 0 (Z.min m (len s - a)).
Proof.
  intros Ha Hm. rewrite slice_take_drop by done. unfold len.
  rewrite length_take, length_drop. lia.
Qed.

(** ** The splitting loop *)

Lemma len_nil {A} : len (@nil A) = 0.
Proof. reflexivity. Qed.

Lemma len_cons {A} (x : A) (l : list A) : len (x :: l) = 1 + len l.
Proof. unfold len. simpl length. lia. Qed.

Lemma len_app {A} (l k : list A) : len (l ++ k) = len l + len k.
Proof. unfold len. rewrite length_app. lia. Qed.

Lemma len_nonneg {A} (l : list A) : 0 ≤ len l.
Proof. unfold len. lia. Qed.

Section while_chunks.
Context (p : Paragraph) (txt : str) (max_total_chars : Z).

Lemma while_chunks_fuel_mono fuel fuel' start r :
  while_chunks fuel p txt (len txt) max_total_chars start = Some r →
  (fuel ≤ fuel')%nat →
  while_chunks fuel' p txt (len txt) max_total_chars start = Some r.
Proof.
  revert fuel' start r.
  induction fuel as [|fuel IH]; intros fuel' start r; simpl; [discriminate|].
  intros H Hle. destruct fuel' as [|fuel']; [lia|]. simpl.
  destruct (start <? len txt); [|done].
  destruct (while_chunks fuel _ _ _ _ _) as [rest|] eqn:E; [|discriminate].
  rewrite (IH fuel' _ rest E) by lia. exact H.
Qed.

(** With a limit that is not positive the loop never ends. *)
Lemma while_chunks_diverges fuel start :
  max_total_chars ≤ 0 → start < len txt →
  while_chunks fuel p txt (len txt) max_total_chars start = None.
Proof.
  intros Hmc. revert start.
  induction fuel as [|fuel IH]; intros start Hlt; simpl; [done|].
  destruct (Z.ltb_spec start (len txt)); [|lia].
  by rewrite IH by lia.
Qed.

(** What the loop yields when it ends. *)
Lemma while_chunks_sound fuel start r :
  0 < max_total_chars → 0 ≤ start →
  while_chunks fuel p txt (len txt) max_total_chars start = Some r →
  ∃ chunks : list str,
    r = chunk_batch p <$> chunks
    ∧ concat chunks = drop (Z.to_nat start) txt
    ∧ len txt ≤ start + len chunks * max_total_chars
    ∧ (0 < len chunks → start + (len chunks - 1) * max_total_chars < len txt)
    ∧ ∀ (i : nat) c, chunks !! i = Some c →
        c = slice txt (start + Z.of_nat i * max_total_chars)
                      (start + (Z.of_nat i + 1) * max_total_chars)
        ∧ 0 < len c ≤ max_total_chars
        ∧ (Z.of_nat i + 1 < len chunks → len c = max_total_chars).
Proof.
  intros Hmc. revert start r.
  induction fuel as [|fuel IH]; intros start r Hs; simpl; [discriminate|].
  destruct (Z.ltb_spec start (len txt)) as [Hlt|Hge].
  - destruct (while_chunks fuel _ _ _ _ _) as [rest|] eqn:E; [|discriminate].
    intros [= <-].
    destruct (IH (start + max_total_chars) rest) as (chunks & -> & Hcat & Hup & Hlow & Hnth);
      [lia | exact E |].
    exists (slice txt start (start + max_total_chars) :: chunks).
    assert (Hlen : len (slice txt start (start + max_total_chars))
                   = Z.min max_total_chars (len txt - start)).
    { rewrite slice_length by lia. lia. }
    pose proof (len_nonneg chunks) as Hk.
    split; [done|]. rewrite !len_cons. split; [|split; [|split]].
    + simpl. rewrite Hcat, slice_take_drop by lia.
      rewrite Z2Nat.inj_add, <- drop_drop by lia. apply take_drop.
    + lia.
    + intros _. destruct (decide (len chunks = 0)) as [->|]; [lia|].
      specialize (Hlow ltac:(lia)). lia.
    + intros [|i] c; simpl.
      * intros [= <-]. split; [f_equal; lia|]. split; [lia|].
        intros Hi. specialize (Hlow ltac:(lia)). rewrite Hlen. nia.
      * intros Hc. destruct (Hnth _ _ Hc) as (-> & Hb & Hfull).
        split; [f_equal; lia|]. split; [done|].
        intros Hi. apply Hfull. lia.
  - intros [= <-]. exists (@nil str). simpl. change (len (@nil str)) with 0.
    split; [done|]. split; [|split; [lia|split; [lia|]]].
    + rewrite drop_ge; [done|]. unfold len in Hge. lia.
    + intros i c. by rewrite lookup_nil.
Qed.

(** The loop ends whenever the limit is positive. *)
Lemma while_chunks_total fuel start :
  0 < max_total_chars → Z.max 0 (len txt - start) < Z.of_nat fuel →
  is_Some (while_chunks fuel p txt (len txt) max_total_chars start).
Proof.
  intros Hmc. revert start.
  induction fuel as [|fuel IH]; intros start Hf; simpl; [lia|].
  destruct (Z.ltb_spec start (len txt)); [|by eexists].
  destruct (IH (start + max_total_chars)) as [rest ->]; [lia|]. by eexists.
Qed.
End while_chunks.

(** ** The batcher *)


Lemma concat_yield_if_nonempty (b : Batch) : concat (yield_if_nonempty b) = b.
Proof. destruct b; simpl; [done|]. by rewrite app_nil_r. Qed.

Lemma yield_if_nonempty_elem (b b' : Batch) :
  b' ∈ yield_if_nonempty b → b' = b ∧ b ≠ [].
Proof. destruct b; simpl; [by intros ?%elem_of_nil|]. by intros ->%list_elem_of_singleton. Qed.

Lemma payload_app (b b' : Batch) : payload (b ++ b') = payload b + payload b'.
Proof. induction b as [|x b IH]; simpl; lia. Qed.

Lemma payload_concat_text (b : Batch) :
  payload b = len (concat (text_or_empty <$> b)).
Proof.
  induction b as [|x b IH]; simpl; [done|]. by rewrite len_app, IH.
Qed.

Section batcher.
Context (max_total_chars max_items : Z).

Lemma batcher_step_fuel_mono fuel fuel' st it r :
  batcher_step fuel max_total_chars max_items st it = Some r →
  (fuel ≤ fuel')%nat →
  batcher_step fuel' max_total_chars max_items st it = Some r.
Proof.
  unfold batcher_step. destruct st as [batch total]. intros H Hle.
  destruct (_is_blank _); [done|].
  destruct (_ >? _); [|done].
  destruct (while_chunks fuel _ _ _ _ _) as [chunks|] eqn:E; [|discriminate].
  by rewrite (while_chunks_fuel_mono _ _ _ _ _ _ _ E Hle).
Qed.

Lemma batcher_loop_fuel_mono fuel fuel' st items r :
  batcher_loop fuel max_total_chars max_items st items = Some r →
  (fuel ≤ fuel')%nat →
  batcher_loop fuel' max_total_chars max_items st items = Some r.
Proof.
  intros H Hle. revert st r H.
  induction items as [|it items IH]; intros st r; simpl; [done|].
  destruct (batcher_step fuel _ _ _ _) as [[out st']|] eqn:E; [|discriminate].
  rewrite (batcher_step_fuel_mono _ _ _ _ _ E Hle). simpl.
  destruct (batcher_loop fuel _ _ _ _) as [outs|] eqn:E'; [|discriminate].
  by rewrite (IH _ _ E').
Qed.

(** The step on a unit longer than the limit. *)
Lemma batcher_step_oversized fuel batch total it r :
  not_blank it →
  len (text_or_empty it) > max_total_chars →
  batcher_step fuel max_total_chars max_items (batch, total) it = Some r →
  0 < max_total_chars
  ∧ ∃ chunks,
      while_chunks fuel (paragraph it) (text_or_empty it)
        (len (text_or_empty it)) max_total_chars 0 = Some chunks
      ∧ r = (yield_if_nonempty batch ++ chunks,
             match batch with [] => (batch, total) | _ => ([], 0) end).
Proof.
  intros Hnb Hn. unfold batcher_step.
  rewrite is_blank_text_or_empty, Hnb.
  destruct (Z.gtb_spec (len (text_or_empty it)) max_total_chars); [|lia].
  destruct (while_chunks fuel _ _ _ _ _) as [chunks|] eqn:E; [|discriminate].
  intros [= <-]. split; [|by exists chunks].
  destruct (decide (0 < max_total_chars)) as [|Hmc]; [done|].
  rewrite while_chunks_diverges in E; [done | lia |].
  apply not_blank_has_text in Hnb. lia.
Qed.

(** The step is defined whenever the limit is positive and the fuel exceeds
    the length of the text. *)
Lemma batcher_step_total fuel st it :
  0 < max_total_chars →
  len (text_or_empty it) < Z.of_nat fuel →
  is_Some (batcher_step fuel max_total_chars max_items st it).
Proof.
  intros Hmc Hf. unfold batcher_step. destruct st as [batch total].
  destruct (_is_blank _); [by eexists|].
  destruct (_ >? _).
  - destruct (while_chunks_total (paragraph it) (text_or_empty it)
                max_total_chars fuel 0 Hmc) as [chunks ->]; [|by eexists].
    pose proof (len_nonneg (text_or_empty it)). lia.
  - destruct (_ || _); by eexists.
Qed.

Lemma batcher_loop_total fuel st items :
  0 < max_total_chars →
  Forall (λ it, len (text_or_empty it) < Z.of_nat fuel) items →
  is_Some (batcher_loop fuel max_total_chars max_items st items).
Proof.
  intros Hmc Hf. revert st.
  induction Hf as [|it items Hit _ IH]; intros st; simpl; [by eexists|].
  destruct (batcher_step_total fuel st it Hmc Hit) as [[out st'] ->]. simpl.
  destruct (IH st') as [outs ->]. by eexists.
Qed.

End batcher.

Section batcher_invariants.
Context (max_total_chars max_items : Z).

Lemma while_chunks_pieces fuel it chunks :
  not_blank it → 0 < max_total_chars →
  while_chunks fuel (paragraph it) (text_or_empty it)
    (len (text_or_empty it)) max_total_chars 0 = Some chunks →
  pieces_of it (concat chunks)
  ∧ Forall (λ b, b ≠ [] ∧ within_limits max_total_chars 1 b) chunks.
Proof.
  intros Hnb Hmc E.
  destruct (while_chunks_sound _ _ _ _ _ _ Hmc (Z.le_refl 0) E)
    as (cs & -> & Hcat & Hup & Hlow & Hnth).
  apply not_blank_has_text in Hnb as [_ Hpos].
  assert (Hflat : concat (chunk_batch (paragraph it) <$> cs)
                  = (λ c, mkParaRef (paragraph it) (Some c)) <$> cs).
  { clear. induction cs as [|c cs IH]; [done|]. rewrite !fmap_cons. simpl. by f_equal. }
  split; [split; [|split]|].
  - rewrite Hflat. destruct cs; [|done].
    change (len (@nil str)) with 0 in Hup. lia.
  - rewrite Hflat. apply Forall_fmap, Forall_forall. intros c _. simpl.
    split; [done | by eexists].
  - change (Z.to_nat 0) with 0%nat in Hcat. rewrite drop_0 in Hcat.
    rewrite Hflat, <- Hcat. f_equal. clear.
    induction cs as [|c cs IH]; [done|]. rewrite !fmap_cons. simpl. by f_equal.
  - apply Forall_fmap, Forall_lookup_2. intros i c Hc.
    destruct (Hnth i c Hc) as (_ & Hlen & _).
    split; [done|]. unfold within_limits, chunk_batch, payload, text_or_empty.
    simpl. unfold len in *. simpl. lia.
Qed.

(** Every batch yielded is non-empty and within both limits, and the pending
    batch stays so. *)
Lemma batcher_step_limits fuel st it out st' :
  1 ≤ max_items →
  pending_ok max_total_chars max_items st →
  batcher_step fuel max_total_chars max_items st it = Some (out, st') →
  Forall (λ b, b ≠ [] ∧ within_limits max_total_chars max_items b) out
  ∧ pending_ok max_total_chars max_items st'.
Proof.
  intros Hmi [Hpay Hlim]. destruct st as [batch total]. simpl in Hpay, Hlim.
  assert (Hyield : Forall (λ b, b ≠ [] ∧ within_limits max_total_chars max_items b)
                     (yield_if_nonempty batch)).
  { apply Forall_forall. intros b [-> Hne]%yield_if_nonempty_elem. auto. }
  destruct (_is_blank (original_text it)) eqn:Hb.
  { unfold batcher_step. rewrite is_blank_text_or_empty, Hb.
    intros [= <- <-]. by split. }
  destruct (Z.gtb_spec (len (text_or_empty it)) max_total_chars) as [Hgt|Hle].
  - intros H. apply batcher_step_oversized in H as (Hmc & chunks & E & [= -> ->]);
      [|done|lia].
    destruct (while_chunks_pieces _ _ _ Hb Hmc E) as [_ Hch].
    split.
    + apply Forall_app. split; [done|].
      eapply Forall_impl; [exact Hch|]. intros b [? [? ?]].
      split; [done|]. split; [done|]. lia.
    + destruct batch; [by split|]. split; [done|]. by intros [].
  - unfold batcher_step. rewrite is_blank_text_or_empty, Hb.
    destruct (Z.gtb_spec (len (text_or_empty it)) max_total_chars); [lia|].
    destruct (Z.gtb_spec (len batch + 1) max_items);
      destruct (Z.gtb_spec (total + len (text_or_empty it)) max_total_chars);
      simpl; intros [= <- <-].
    1-3: (split; [done|]; split; [simpl; lia|]; intros _;
          split; [simpl; lia|]; unfold len; simpl; lia).
    split; [done|]. unfold pending_ok, within_limits.
    cbn [fst snd]. rewrite payload_app, len_app.
    assert (payload [it] = len (text_or_empty it)) as -> by (simpl; lia).
    change (len [it]) with 1.
    destruct batch as [|x batch]; [simpl in *; lia|].
    specialize (Hlim ltac:(done)) as [? ?]. lia.
Qed.


(** The batches, put end to end, are the pending batch followed by the pieces
    of the non-blank units, in the order of the units. *)
Lemma batcher_loop_flatten fuel st items bs :
  batcher_loop fuel max_total_chars max_items st items = Some bs →
  ∃ pss, Forall2 pieces_of (filter not_blank items) pss
         ∧ concat bs = st.1 ++ concat pss.
Proof.
  revert st bs.
  induction items as [|it items IH]; intros st bs; simpl.
  - intros [= <-]. exists []. split; [constructor|].
    by rewrite concat_yield_if_nonempty, app_nil_r.
  - destruct (batcher_step fuel _ _ _ _) as [[out st']|] eqn:E; [|discriminate].
    simpl. destruct (batcher_loop fuel _ _ _ _) as [outs|] eqn:E'; [|discriminate].
    intros [= <-]. destruct (IH _ _ E') as (pss & Hpss & Hcat).
    rewrite concat_app, Hcat. destruct st as [batch total]. simpl.
    rewrite filter_cons. destruct (decide (not_blank it)) as [Hnb|Hb].
    + destruct (Z.gtb_spec (len (text_or_empty it)) max_total_chars) as [Hgt|Hle].
      * apply batcher_step_oversized in E as (Hmc & chunks & Ech & [= -> ->]);
          [|done|lia].
        destruct (while_chunks_pieces _ _ _ Hnb Hmc Ech) as [Hp _].
        exists (concat chunks :: pss). split; [by constructor|].
        rewrite concat_app, concat_yield_if_nonempty. simpl.
        destruct batch; simpl; by rewrite <- ?app_assoc.
      * exists ([it] :: pss). split.
        { constructor; [|done]. split; [done|]. split.
          - constructor; [|done]. split; [done|].
            apply not_blank_has_text in Hnb as [-> _]. by eexists.
          - simpl. by rewrite app_nil_r. }
        revert E. unfold batcher_step. rewrite is_blank_text_or_empty, Hnb.
        destruct (Z.gtb_spec (len (text_or_empty it)) max_total_chars); [lia|].
        destruct (_ || _); intros [= <- <-]; simpl.
        -- by rewrite concat_yield_if_nonempty.
        -- by rewrite <- app_assoc.
    + exists pss. split; [done|].
      revert E. unfold batcher_step. rewrite is_blank_text_or_empty.
      unfold not_blank in Hb. destruct (_is_blank (original_text it)); [|done].
      by intros [= <- <-].
Qed.

End batcher_invariants.

(** ** The translation client *)

Section client.
Context (session : Session) (texts : list str).

Lemma attempt_loop_spec attempts w :
  ∃ fails : nat,
    (fails ≤ length attempts)%nat
    ∧ (∀ k, (k < fails)%nat → attempt_fails session texts (requests w + k))
    ∧ trace (attempt_loop session texts attempts w).2
      = trace w ++ concat (failed_attempt texts <$> take fails attempts)
          ++ (if decide (fails < length attempts)%nat then [Posted texts] else [Errored])
    ∧ requests (attempt_loop session texts attempts w).2
      = (requests w + fails `min` length attempts
         + (if decide (fails < length attempts)%nat then 1 else 0))%nat
    ∧ ((fails < length attempts)%nat →
       try_body (session (requests w + fails)%nat texts) texts
       = inr (attempt_loop session texts attempts w).1)
    ∧ (fails = length attempts → (attempt_loop session texts attempts w).1 = texts).
Proof.
  revert w. induction attempts as [|a attempts IH]; intros w.
  - exists 0%nat. simpl. split; [lia|]. split; [lia|]. split; [done|].
    split; [lia|]. split; [lia|done].
  - simpl. destruct (try_body (session (requests w) texts) texts) as [e|out] eqn:E.
    + set (w1 := emit _ (emit _ (post texts w))).
      destruct (IH w1) as (fails & Hle & Hfail & Htr & Hreq & Hok & Hall).
      assert (Hw1 : requests w1 = S (requests w)) by done.
      exists (S fails). split; [lia|]. split; [|split; [|split; [|split]]].
      * intros [|k] Hk.
        -- exists e. by rewrite Nat.add_0_r.
        -- replace (requests w + S k)%nat with (requests w1 + k)%nat by lia.
           apply Hfail. lia.
      * rewrite Htr. subst w1. simpl. rewrite <- !app_assoc. simpl.
        repeat f_equal. repeat case_decide; (done || lia).
      * rewrite Hreq, Hw1. repeat case_decide; lia.
      * intros Hlt.
        replace (requests w + S fails)%nat with (requests w1 + fails)%nat by lia.
        apply Hok. lia.
      * intros [= Heq]. by apply Hall.
    + exists 0%nat. simpl. rewrite Nat.add_0_r.
      split; [lia|]. split; [lia|]. split; [done|]. split; [lia|].
      split; [done|discriminate].
Qed.

(** If every request fails, the texts come back unchanged. *)
Lemma attempt_loop_all_fail attempts w :
  (∀ k, attempt_fails session texts k) →
  (attempt_loop session texts attempts w).1 = texts.
Proof.
  intros Hf. revert w. induction attempts as [|a attempts IH]; intros w; simpl; [done|].
  destruct (Hf (requests w)) as [e ->]. apply IH.
Qed.

(** If no answer is a list of the wrong length, the result has the length
    of the input. *)
Lemma attempt_loop_length attempts w :
  (∀ k xs, session k texts = Data (TTList xs) → length xs = length texts) →
  length (attempt_loop session texts attempts w).1 = length texts.
Proof.
  intros Hs. revert w. induction attempts as [|a attempts IH]; intros w; simpl; [done|].
  destruct (try_body _ _) as [e|out] eqn:E; [apply IH|]. simpl.
  unfold try_body in E.
  destruct (session (requests w) texts) as [| | | |[xs|s|]] eqn:Es; try discriminate.
  - injection E as <-. rewrite length_fmap. by eapply Hs.
  - destruct (Z.eqb_spec (len texts) 1) as [H1|]; [|discriminate].
    injection E as <-. unfold len in H1. simpl. lia.
Qed.

End client.

(** A string answer is accepted only for exactly one text: the count is
    checked on this path. *)
Lemma try_body_str_count_checked (s : list N) (texts : list (list N)) :
  len texts ≠ 1 → try_body (Data (TTStr s)) texts = inl ValueError.
Proof. intros H. simpl. by destruct (Z.eqb_spec (len texts) 1). Qed.

(** A list answer is accepted whatever its length: the count is not checked
    on this path. *)
Lemma try_body_list_count_unchecked (xs : list JsonElem) (texts : list (list N)) :
  try_body (Data (TTList xs)) texts = inr (py_str <$> xs).
Proof. reflexivity. Qed.

(** ** Accumulation *)

Lemma translate_batches_arrivals session batches accum w :
  (translate_batches session batches accum w).1
  = foldl accum_append accum (arrivals session batches w).
Proof.
  revert accum w. induction batches as [|batch batches IH]; intros accum w; simpl; [done|].
  destruct (libretranslate_translate_batch _ _ _) as [translated_list w'].
  by rewrite IH, foldl_app.
Qed.

(** An entry of [accum] holds what it held, then the arrivals at its key in
    their order.  It exists only if it existed or something arrived. *)
Lemma foldl_accum_append_lookup (arr : list (ParaRef * str))
    (accum : gmap Z (list str)) (p : Paragraph) :
  foldl accum_append accum arr !! obj_id p
  = match arrivals_at p arr with
    | [] => accum !! obj_id p
    | _ => Some (default [] (accum !! obj_id p) ++ (arrivals_at p arr).*2)
    end.
Proof.
  unfold obj_id, arrivals_at. revert accum.
  induction arr as [|[x t] arr IH]; intros accum; simpl; [done|].
  rewrite IH, filter_cons. unfold accum_append, obj_id. cbn [fst snd].
  destruct (decide (paragraph x = p)) as [->|Hne]; cbn [fst snd].
  - rewrite lookup_insert_eq. simpl.
    destruct (filter _ arr) as [|a arr']; simpl; [done|].
    by rewrite <- app_assoc.
  - by rewrite lookup_insert_ne.
Qed.

(** ** Writeback *)

Lemma writeback_step_accum st u :
  wb_accum (writeback_step st u) = wb_accum st.
Proof. unfold writeback_step. by destruct (wb_accum st !! _). Qed.

Lemma writeback_accum st units :
  wb_accum (foldl writeback_step st units) = wb_accum st.
Proof.
  revert st. induction units as [|u units IH]; intros st; simpl; [done|].
  by rewrite IH, writeback_step_accum.
Qed.

(** The commits of a writeback pass: one for each unit, in order, whose key
    is in [accum]; the text is the concatenation of the entry. *)
Lemma writeback_commits st units :
  wb_commits (foldl writeback_step st units)
  = wb_commits st
    ++ omap (λ u, (λ chunks, (paragraph u, concat chunks))
                    <$> wb_accum st !! obj_id (paragraph u)) units.
Proof.
  revert st. induction units as [|u units IH]; intros st; simpl.
  - by rewrite app_nil_r.
  - rewrite IH, writeback_step_accum. unfold writeback_step.
    destruct (wb_accum st !! obj_id (paragraph u)) as [chunks|] eqn:E; simpl.
    + by rewrite <- app_assoc.
    + done.
Qed.

Lemma writeback_doc st units (p : Paragraph) :
  wb_doc (foldl writeback_step st units) !! p
  = match wb_accum st !! obj_id p with
    | Some chunks =>
        if decide (p ∈ paragraph <$> units) then Some (concat chunks)
        else wb_doc st !! p
    | None => wb_doc st !! p
    end.
Proof.
  unfold obj_id. revert st. induction units as [|u units IH]; intros st.
  - simpl. by destruct (wb_accum st !! p).
  - cbn [foldl]. rewrite IH, writeback_step_accum, fmap_cons.
    destruct (wb_accum st !! p) as [chunks|] eqn:Ep.
    + destruct (decide (p ∈ paragraph u :: (paragraph <$> units))) as [Hin|Hnin];
        destruct (decide (p ∈ paragraph <$> units)) as [Hin'|Hnin']; try done.
      * apply elem_of_cons in Hin as [->|?]; [|done].
        unfold writeback_step, obj_id. rewrite Ep. simpl. apply lookup_insert_eq.
      * exfalso. apply Hnin. by apply list_elem_of_further.
      * unfold writeback_step, obj_id.
        destruct (wb_accum st !! paragraph u); [|done]. simpl.
        apply lookup_insert_ne. intros Heq. apply Hnin. rewrite Heq.
        apply list_elem_of_here.
    + unfold writeback_step, obj_id.
      destruct (wb_accum st !! paragraph u) eqn:E; [|done]. simpl.
      apply lookup_insert_ne. congruence.
Qed.

(** ** The pieces of the units *)

Lemma pieces_filter_at (p : Paragraph) (it : ParaRef) (ps : list ParaRef) :
  pieces_of it ps →
  filter (λ x, paragraph x = p) ps = if decide (paragraph it = p) then ps else [].
Proof.
  intros (_ & Hall & _). induction Hall as [|x ps [Hx _] _ IH]; simpl.
  - by destruct (decide _).
  - rewrite filter_cons, IH, Hx. by destruct (decide (paragraph it = p)).
Qed.

(** The pieces at a paragraph are the pieces of the units at it. *)
Lemma pieces_at_units (p : Paragraph) (units : list ParaRef) pss :
  Forall2 pieces_of units pss →
  concat (text_or_empty <$> filter (λ x, paragraph x = p) (concat pss))
  = concat (text_or_empty <$> units_at p units)
  ∧ (filter (λ x, paragraph x = p) (concat pss) = [] ↔ units_at p units = []).
Proof.
  unfold units_at. induction 1 as [|u ps units pss Hp _ IH]; simpl; [done|].
  rewrite filter_app, filter_cons, (pieces_filter_at p u ps Hp).
  destruct IH as [IH1 IH2]. destruct Hp as (Hne & _ & Hcat).
  destruct (decide (paragraph u = p)); simpl; [|done].
  rewrite fmap_app, concat_app, IH1, <- Hcat. split; [done|].
  split; [|done]. destruct ps; [done|]. discriminate.
Qed.

Lemma units_at_nil (units : list ParaRef) (p : Paragraph) :
  p ∉ paragraph <$> units → units_at p units = [].
Proof.
  unfold units_at. induction units as [|v units IH]; simpl; [done|].
  intros [Hne Hnin]%not_elem_of_cons. rewrite filter_cons.
  rewrite decide_False by done. by apply IH.
Qed.

Lemma units_at_NoDup (units : list ParaRef) (u : ParaRef) :
  NoDup (paragraph <$> units) → u ∈ units →
  units_at (paragraph u) units = [u].
Proof.
  induction units as [|v units IH]; simpl.
  - by intros _ ?%elem_of_nil.
  - intros [Hnin Hnd]%NoDup_cons Hin. unfold units_at. rewrite filter_cons.
    apply elem_of_cons in Hin as [->|Hin].
    + rewrite decide_True by done. f_equal. by apply units_at_nil.
    + rewrite decide_False; [by apply IH|].
      intros Heq. apply Hnin. rewrite Heq. by apply list_elem_of_fmap_2.
Qed.

(** ** The arrivals *)

Lemma zip_fmap_self {A B} (f : A → B) (l : list A) :
  zip l (f <$> l) = (λ x, (x, f x)) <$> l.
Proof. induction l as [|x l IH]; [done|]. simpl. f_equal. exact IH. Qed.

Lemma arrivals_at_fst (p : Paragraph) (arr : list (ParaRef * str)) :
  (arrivals_at p arr).*1 = filter (λ x, paragraph x = p) (arr.*1).
Proof.
  unfold arrivals_at. induction arr as [|[x t] arr IH]; [done|].
  rewrite fmap_cons, !filter_cons. cbn [fst].
  destruct (decide (paragraph x = p)); [rewrite fmap_cons|]; by rewrite IH.
Qed.

Section arrivals.
Context (session : Session).

(** When every result has the length of its input, each batch item gets a
    translation. *)
Lemma arrivals_fst batches w :
  (∀ texts w', length (libretranslate_translate_batch texts session w').1
               = length texts) →
  (arrivals session batches w).*1 = concat batches.
Proof.
  intros Hlen. revert w. induction batches as [|b batches IH]; intros w; simpl; [done|].
  specialize (Hlen (text_or_empty <$> b) w).
  destruct (libretranslate_translate_batch _ _ _) as [translated_list w'].
  rewrite fmap_app, IH, fst_zip; [done|].
  simpl in Hlen. rewrite length_fmap in Hlen. lia.
Qed.

(** When every result is its input, each batch item arrives with its own
    text. *)
Lemma arrivals_identity batches w :
  (∀ texts w', (libretranslate_translate_batch texts session w').1 = texts) →
  arrivals session batches w = (λ x, (x, text_or_empty x)) <$> concat batches.
Proof.
  intros Hid. revert w. induction batches as [|b batches IH]; intros w; simpl; [done|].
  specialize (Hid (text_or_empty <$> b) w).
  destruct (libretranslate_translate_batch _ _ _) as [translated_list w'].
  simpl in Hid. subst translated_list.
  by rewrite fmap_app, IH, zip_fmap_self.
Qed.

End arrivals.

(** ** Commits *)

Section commits.
Context (accum : gmap Z (list str)).

Lemma omap_cons {A B} (f : A → option B) (x : A) (l : list A) :
  omap f (x :: l)
  = match f x with Some y => y :: omap f l | None => omap f l end.
Proof. reflexivity. Qed.

Lemma commit_of_Some u c :
  commit_of accum u = Some c →
  ∃ chunks, accum !! obj_id (paragraph u) = Some chunks
            ∧ c = (paragraph u, concat chunks).
Proof.
  unfold commit_of. destruct (accum !! _) as [chunks|]; [|done].
  intros [= <-]. by exists chunks.
Qed.

Lemma commit_of_None u :
  commit_of accum u = None → accum !! obj_id (paragraph u) = None.
Proof. unfold commit_of. by destruct (accum !! _). Qed.

(** The commits to one paragraph: the same text, once for each unit at it. *)
Lemma commits_at (p : Paragraph) (units : list ParaRef) :
  filter (λ c, c.1 = p) (omap (commit_of accum) units)
  = match accum !! obj_id p with
    | Some chunks => replicate (length (units_at p units)) (p, concat chunks)
    | None => []
    end.
Proof.
  unfold units_at. induction units as [|u units IH].
  - simpl. by destruct (accum !! obj_id p).
  - rewrite omap_cons, (filter_cons _ u).
    destruct (commit_of accum u) as [c|] eqn:E.
    + apply commit_of_Some in E as (chunks & Hu & ->).
      rewrite filter_cons. cbn [fst].
      destruct (decide (paragraph u = p)) as [<-|Hne]; [|done].
      rewrite IH, Hu. done.
    + apply commit_of_None in E. rewrite IH.
      destruct (decide (paragraph u = p)) as [Heq|Hne]; [|done].
      rewrite Heq in E. by rewrite E.
Qed.

(** The paragraphs committed are among those of the units, in order. *)
Lemma commits_sublist (units : list ParaRef) :
  (omap (commit_of accum) units).*1 `sublist_of` paragraph <$> units.
Proof.
  induction units as [|u units IH]; [done|].
  rewrite omap_cons, fmap_cons. destruct (commit_of accum u) as [c|] eqn:E.
  - apply commit_of_Some in E as (chunks & _ & ->).
    rewrite fmap_cons. by apply sublist_skip.
  - by apply sublist_cons.
Qed.

Lemma commits_all (units : list ParaRef) :
  Forall (λ u, is_Some (accum !! obj_id (paragraph u))) units →
  omap (commit_of accum) units
  = (λ u, (paragraph u, concat (default [] (accum !! obj_id (paragraph u))))) <$> units.
Proof.
  induction 1 as [|u units [chunks Hu] _ IH]; [done|].
  rewrite omap_cons, fmap_cons, <- IH. unfold commit_of at 1. by rewrite Hu.
Qed.

End commits.

(** ** The whole run *)

Lemma batcher_flatten fuel items max_total_chars max_items bs :
  batcher fuel items max_total_chars max_items = Some bs →
  ∃ pss, Forall2 pieces_of (filter not_blank items) pss ∧ concat bs = concat pss.
Proof. intros H. by apply batcher_loop_flatten in H. Qed.

Lemma batcher_total fuel items max_total_chars max_items :
  0 < max_total_chars →
  Forall (λ it, len (text_or_empty it) < Z.of_nat fuel) items →
  is_Some (batcher fuel items max_total_chars max_items).
Proof. apply batcher_loop_total. Qed.

Lemma batcher_fuel_mono fuel fuel' items max_total_chars max_items bs :
  batcher fuel items max_total_chars max_items = Some bs →
  (fuel ≤ fuel')%nat →
  batcher fuel' items max_total_chars max_items = Some bs.
Proof. apply batcher_loop_fuel_mono. Qed.

(** No item of a batch has [None] as its text. *)
Lemma batcher_items_have_text fuel items max_total_chars max_items bs :
  batcher fuel items max_total_chars max_items = Some bs →
  Forall (λ x, is_Some (original_text x)) (concat bs).
Proof.
  intros (pss & Hpss & ->)%batcher_flatten.
  induction Hpss as [|u ps units pss (_ & Hall & _) _ IH]; simpl; [done|].
  apply Forall_app. split; [|done].
  eapply Forall_impl; [exact Hall|]. by intros x [_ ?].
Qed.

Lemma filter_not_blank_idemp (units : list ParaRef) :
  filter not_blank (filter not_blank units) = filter not_blank units.
Proof. by apply list_filter_filter_l. Qed.

Section run.
Context (fuel : nat) (session : Session) (all_paras : list ParaRef).
Context (doc : gmap Z (list N)) (w : World).

Lemma translate_docx_Some r :
  translate_docx fuel session all_paras doc w = Some r →
  batcher fuel (filter not_blank all_paras)
    MAX_TOTAL_CHARS_PER_BATCH MAX_ITEMS_PER_BATCH = Some (run_batches r)
  ∧ run_accum r = foldl accum_append ∅ (arrivals session (run_batches r) w)
  ∧ run_commits r = omap (commit_of (run_accum r)) (filter not_blank all_paras)
  ∧ ∀ p : Paragraph,
      run_doc r !! p
      = match run_accum r !! obj_id p with
        | Some chunks =>
            if decide (p ∈ paragraph <$> filter not_blank all_paras)
            then Some (concat chunks) else doc !! p
        | None => doc !! p
        end.
Proof.
  unfold translate_docx.
  destruct (batcher fuel _ _ _) as [bs|] eqn:Ebs; [|discriminate]. simpl.
  pose proof (translate_batches_arrivals session bs ∅ w) as Harr.
  destruct (translate_batches session bs ∅ w) as [accum w']. simpl in Harr.
  intros [= <-]. simpl.
  rewrite writeback_accum, writeback_commits. simpl.
  split; [done|]. split; [done|]. split; [done|].
  intros p. by rewrite writeback_doc.
Qed.

Lemma translate_docx_total :
  Forall (λ u, len (text_or_empty u) < Z.of_nat fuel) all_paras →
  is_Some (translate_docx fuel session all_paras doc w).
Proof.
  intros Hf. unfold translate_docx.
  destruct (batcher_total fuel (filter not_blank all_paras)
              MAX_TOTAL_CHARS_PER_BATCH MAX_ITEMS_PER_BATCH) as [bs ->].
  - done.
  - rewrite Forall_forall in Hf |- *.
    intros u [_ Hu]%list_elem_of_filter. by apply Hf.
  - simpl. destruct (translate_batches _ _ _ _). by eexists.
Qed.

(** The entry of a paragraph in [accum] at the end: the translations that
    arrived at it, in their order; none if nothing arrived. *)
Lemma run_accum_lookup r (p : Paragraph) :
  translate_docx fuel session all_paras doc w = Some r →
  run_accum r !! obj_id p
  = match arrivals_at p (arrivals session (run_batches r) w) with
    | [] => None
    | arr => Some (arr.*2)
    end.
Proof.
  intros (_ & -> & _)%translate_docx_Some.
  rewrite foldl_accum_append_lookup.
  by destruct (arrivals_at _ _).
Qed.

(** With results of the right length, the items that arrive at a paragraph
    are the pieces of the units at it, in the order of the units. *)
Lemma run_arrivals_at r (p : Paragraph) :
  (∀ texts w', length (libretranslate_translate_batch texts session w').1
               = length texts) →
  translate_docx fuel session all_paras doc w = Some r →
  let arr := arrivals_at p (arrivals session (run_batches r) w) in
  concat (text_or_empty <$> arr.*1)
  = concat (text_or_empty <$> units_at p (filter not_blank all_paras))
  ∧ (arr = [] ↔ units_at p (filter not_blank all_paras) = []).
Proof.
  intros Hlen (Hbs & _)%translate_docx_Some. simpl.
  apply batcher_flatten in Hbs as (pss & Hpss & Hcat).
  rewrite filter_not_blank_idemp in Hpss.
  destruct (pieces_at_units p _ _ Hpss) as [H1 H2].
  rewrite arrivals_at_fst, arrivals_fst, Hcat by done. split; [done|].
  rewrite <- H2, <- Hcat, <- (arrivals_fst session _ w Hlen), <- arrivals_at_fst.
  split; [by intros ->|]. by intros ?%fmap_nil_inv.
Qed.

End run.

(** ** The equations of the batcher *)

Section equations.
Context (fuel : nat) (max_total_chars max_items : Z).

Lemma while_chunks_next p txt n start :
  start < n →
  while_chunks (S fuel) p txt n max_total_chars start
  = rest ← while_chunks fuel p txt n max_total_chars (start + max_total_chars);
    Some (chunk_batch p (slice txt start (start + max_total_chars)) :: rest).
Proof. intros H. simpl. by destruct (Z.ltb_spec start n); [|lia]. Qed.

Lemma while_chunks_end p txt n start :
  n ≤ start →
  while_chunks (S fuel) p txt n max_total_chars start = Some [].
Proof. intros H. simpl. by destruct (Z.ltb_spec start n); [lia|]. Qed.

Lemma batcher_step_blank st it :
  _is_blank (original_text it) = true →
  batcher_step fuel max_total_chars max_items st it = Some ([], st).
Proof.
  intros H. unfold batcher_step. destruct st.
  by rewrite is_blank_text_or_empty, H.
Qed.

Lemma batcher_step_long batch total it :
  not_blank it → len (text_or_empty it) > max_total_chars →
  batcher_step fuel max_total_chars max_items (batch, total) it
  = chunks ← while_chunks fuel (paragraph it) (text_or_empty it)
               (len (text_or_empty it)) max_total_chars 0;
    Some (yield_if_nonempty batch ++ chunks,
          match batch with [] => (batch, total) | _ => ([], 0) end).
Proof.
  intros Hnb H. unfold batcher_step. rewrite is_blank_text_or_empty, Hnb.
  by destruct (Z.gtb_spec (len (text_or_empty it)) max_total_chars); [|lia].
Qed.

Lemma batcher_step_fits batch total it :
  not_blank it → len (text_or_empty it) ≤ max_total_chars →
  batcher_step fuel max_total_chars max_items (batch, total) it
  = if (len batch + 1 >? max_items)
       || (total + len (text_or_empty it) >? max_total_chars)
    then Some (yield_if_nonempty batch, ([it], len (text_or_empty it)))
    else Some ([], (batch ++ [it], total + len (text_or_empty it))).
Proof.
  intros Hnb H. unfold batcher_step. rewrite is_blank_text_or_empty, Hnb.
  by destruct (Z.gtb_spec (len (text_or_empty it)) max_total_chars); [lia|].
Qed.

End equations.

(** ** Texts of one repeated character *)

Lemma len_xs (n : N) : len (xs n) = Z.of_N n.
Proof. unfold len, xs. rewrite length_replicate. lia. Qed.

Lemma slice_xs (n : N) (a m : Z) :
  0 ≤ a → 0 ≤ m →
  slice (xs n) a (a + m) = xs (Z.to_N (Z.min m (Z.of_N n - a))).
Proof.
  intros Ha Hm. rewrite slice_take_drop by done. unfold xs.
  rewrite drop_replicate, take_replicate. f_equal. lia.
Qed.

Lemma xs_not_blank (n : N) : (0 < n)%N → _is_blank (Some (xs n)) = false.
Proof.
  intros Hn. destruct (_is_blank (Some (xs n))) eqn:E; [|done].
  apply is_blank_spec in E as [?|(s & [= <-] & Hall)]; [done|].
  unfold xs in Hall. destruct (N.to_nat n) as [|k] eqn:Ek; [lia|].
  simpl in Hall. by inversion Hall.
Qed.

(** ** Facts about the run *)

Lemma unreachable_identity texts w :
  (libretranslate_translate_batch texts unreachable w).1 = texts.
Proof. apply attempt_loop_all_fail. intros k. by eexists. Qed.

Lemma identity_length session :
  (∀ texts w, (libretranslate_translate_batch texts session w).1 = texts) →
  ∀ texts w, length (libretranslate_translate_batch texts session w).1 = length texts.
Proof. intros Hid texts w. by rewrite Hid. Qed.

(** When every result has the length of its input, the paragraphs
    committed are those of the non-blank units, in their order, and each
    commit is the concatenation of what arrived at the paragraph. *)
Lemma commits_follow_units fuel session all_paras doc w r :
  (∀ texts w', length (libretranslate_translate_batch texts session w').1
               = length texts) →
  translate_docx fuel session all_paras doc w = Some r →
  run_commits r
  = (λ u, (paragraph u,
           concat (arrivals_at (paragraph u)
                     (arrivals session (run_batches r) w)).*2))
      <$> filter not_blank all_paras.
Proof.
  intros Hlen Hr.
  destruct (translate_docx_Some _ _ _ _ _ _ Hr) as (_ & _ & -> & _).
  rewrite commits_all.
  - apply list_fmap_ext. intros i u Hu%list_elem_of_lookup_2.
    rewrite (run_accum_lookup _ _ _ _ _ _ _ Hr).
    by destruct (arrivals_at _ _).
  - apply Forall_forall. intros u Hu.
    rewrite (run_accum_lookup _ _ _ _ _ _ _ Hr).
    destruct (run_arrivals_at _ _ _ _ _ _ (paragraph u) Hlen Hr) as [_ Hnil].
    destruct (arrivals_at _ _) as [|a arr]; [|by eexists].
    assert (Hin : u ∈ units_at (paragraph u) (filter not_blank all_paras)).
    { by apply list_elem_of_filter. }
    rewrite (proj1 Hnil eq_refl) in Hin. by apply elem_of_nil in Hin.
Qed.

Lemma commits_paragraphs fuel session all_paras doc w r :
  (∀ texts w', length (libretranslate_translate_batch texts session w').1
               = length texts) →
  translate_docx fuel session all_paras doc w = Some r →
  (run_commits r).*1 = paragraph <$> filter not_blank all_paras.
Proof.
  intros Hlen Hr. rewrite (commits_follow_units _ _ _ _ _ _ Hlen Hr).
  rewrite <- list_fmap_compose. by apply list_fmap_ext.
Qed.

Lemma pieces_from_units (units : list ParaRef) pss x :
  Forall2 pieces_of units pss → x ∈ concat pss →
  ∃ u, u ∈ units ∧ paragraph x = paragraph u.
Proof.
  induction 1 as [|u ps units pss (_ & Hall & _) _ IH]; simpl; intros Hx.
  - by apply elem_of_nil in Hx.
  - apply elem_of_app in Hx as [Hx|Hx].
    + rewrite Forall_forall in Hall. destruct (Hall x Hx) as [Hp _].
      exists u. split; [apply list_elem_of_here | done].
    + destruct (IH Hx) as (v & Hv & Hp). exists v.
      split; [by apply list_elem_of_further | done].
Qed.

(** Every item of a batch is a piece of a unit that is not blank: a blank
    unit enters no batch. *)
Lemma batch_items_from_non_blank fuel items max_total_chars max_items bs x :
  batcher fuel items max_total_chars max_items = Some bs →
  x ∈ concat bs →
  ∃ it, it ∈ items ∧ not_blank it ∧ paragraph x = paragraph it.
Proof.
  intros (pss & Hpss & ->)%batcher_flatten Hx.
  destruct (pieces_from_units _ _ _ Hpss Hx) as (u & [Hnb Hu]%list_elem_of_filter & Hp).
  by exists u.
Qed.

(** With a limit that is not positive, the batcher does not get past the
    first unit that is not blank, whatever the fuel. *)
Lemma batcher_step_diverges fuel max_total_chars max_items st it :
  max_total_chars ≤ 0 → not_blank it →
  batcher_step fuel max_total_chars max_items st it = None.
Proof.
  intros Hmc Hnb. destruct st as [batch total].
  pose proof (not_blank_has_text it Hnb) as [_ Hpos].
  rewrite batcher_step_long by (done || lia).
  rewrite while_chunks_diverges by (done || lia). done.
Qed.

(** The items that translations arrive for are items of the batches. *)
Lemma arrivals_fst_subseteq session batches w :
  (arrivals session batches w).*1 ⊆ concat batches.
Proof.
  revert w. induction batches as [|b batches IH]; intros w; simpl; [done|].
  destruct (libretranslate_translate_batch _ _ _) as [translated_list w'].
  rewrite fmap_app. intros x [Hx|Hx]%elem_of_app; apply elem_of_app.
  - left. apply list_elem_of_fmap in Hx as ([y t] & -> & Hin).
    apply elem_of_zip_l in Hin. done.
  - right. by eapply IH.
Qed.

(** An entry of [accum] is at the paragraph of a non-blank unit. *)
Lemma accum_entry_unit fuel session all_paras doc w r (p : Paragraph) chunks :
  translate_docx fuel session all_paras doc w = Some r →
  run_accum r !! obj_id p = Some chunks →
  p ∈ paragraph <$> filter not_blank all_paras.
Proof.
  intros Hr Hacc.
  destruct (translate_docx_Some _ _ _ _ _ _ Hr) as (Hbs & _).
  rewrite (run_accum_lookup _ _ _ _ _ _ p Hr) in Hacc.
  destruct (arrivals_at p _) as [|[x t] arr] eqn:Earr; [done|].
  assert (Hin : (x, t) ∈ arrivals_at p (arrivals session (run_batches r) w)).
  { rewrite Earr. apply list_elem_of_here. }
  apply list_elem_of_filter in Hin as [Hpx Hin]. simpl in Hpx.
  assert (Hx : x ∈ concat (run_batches r)).
  { apply (arrivals_fst_subseteq session _ w).
    apply list_elem_of_fmap. by exists (x, t). }
  destruct (batch_items_from_non_blank _ _ _ _ _ _ Hbs Hx) as (it & Hit & _ & Heq).
  rewrite <- Hpx, Heq. by apply list_elem_of_fmap_2.
Qed.

Lemma units_at_elem (units : list ParaRef) (p : Paragraph) :
  p ∈ paragraph <$> units → (1 ≤ length (units_at p units))%nat.
Proof.
  intros (u & -> & Hu)%list_elem_of_fmap.
  assert (Hin : u ∈ units_at (paragraph u) units) by by apply list_elem_of_filter.
  destruct (units_at _ _); [by apply elem_of_nil in Hin | simpl; lia].
Qed.

(** ** The running total of the pending batch *)


(** ** The batches yielded so far *)

Section yielded.
Context (max_total_chars max_items : Z).

(** With more fuel the generator has yielded what it had yielded before, and
    more after it; once it has ended, nothing changes. *)
Lemma while_chunks_yielded_mono fuel fuel' p txt n start :
  (fuel ≤ fuel')%nat →
  (while_chunks_yielded fuel p txt n max_total_chars start).1
    `prefix_of` (while_chunks_yielded fuel' p txt n max_total_chars start).1
  ∧ ((while_chunks_yielded fuel p txt n max_total_chars start).2 = true →
     while_chunks_yielded fuel' p txt n max_total_chars start
     = while_chunks_yielded fuel p txt n max_total_chars start).
Proof.
  revert fuel' start. induction fuel as [|fuel IH]; intros fuel' start Hle.
  { split; [apply prefix_nil | discriminate]. }
  destruct fuel' as [|fuel']; [lia|]. simpl.
  destruct (start <? n); [|done].
  destruct (IH fuel' (start + max_total_chars)) as [Hp He]; [lia|].
  destruct (while_chunks_yielded fuel _ _ _ _ _) as [rest ended].
  destruct (while_chunks_yielded fuel' _ _ _ _ _) as [rest' ended'].
  simpl in *. split; [by apply prefix_cons|].
  intros ->. by specialize (He eq_refl) as [= -> ->].
Qed.

(** The loop has ended within the fuel exactly when [while_chunks] has a
    result, and then it has yielded that. *)
Lemma while_chunks_yielded_ended fuel p txt n start r :
  while_chunks fuel p txt n max_total_chars start = Some r
  ↔ while_chunks_yielded fuel p txt n max_total_chars start = (r, true).
Proof.
  revert start r. induction fuel as [|fuel IH]; intros start r; simpl; [done|].
  destruct (start <? n); [|split; congruence].
  specialize (IH (start + max_total_chars)).
  destruct (while_chunks fuel _ _ _ _ _) as [rest|];
    destruct (while_chunks_yielded fuel _ _ _ _ _) as [rest' ended]; simpl.
  - destruct (IH rest) as [H _]. specialize (H eq_refl) as [= -> ->].
    split; congruence.
  - split; [done|]. intros [= <- ->]. by destruct (IH rest') as [_ H]; specialize (H eq_refl).
Qed.

Lemma batcher_step_yielded_ended fuel st it out st' :
  batcher_step fuel max_total_chars max_items st it = Some (out, st')
  ↔ batcher_step_yielded fuel max_total_chars max_items st it = (out, Some st').
Proof.
  unfold batcher_step, batcher_step_yielded. destruct st as [batch total].
  destruct (_is_blank _); [split; congruence|].
  destruct (_ >? max_total_chars).
  - pose proof (while_chunks_yielded_ended fuel (paragraph it) (text_or_empty it)
                  (len (text_or_empty it)) 0) as H.
    destruct (while_chunks fuel _ _ _ _ _) as [chunks|];
      destruct (while_chunks_yielded fuel _ _ _ _ _) as [chunks' ended]; simpl.
    + destruct (H chunks) as [H1 _]. specialize (H1 eq_refl) as [= -> ->].
      simpl. by split; intros [= <- <-].
    + split; [done|]. destruct ended; [|done].
      by destruct (H chunks') as [_ H2]; specialize (H2 eq_refl).
  - by destruct (_ || _); split; intros [= <- <-].
Qed.

Lemma batcher_loop_yielded_ended fuel st items bs :
  batcher_loop fuel max_total_chars max_items st items = Some bs
  ↔ batcher_loop_yielded fuel max_total_chars max_items st items = (bs, true).
Proof.
  revert st bs. induction items as [|it items IH]; intros st bs; simpl.
  { split; congruence. }
  pose proof (batcher_step_yielded_ended fuel st it) as Hs.
  destruct (batcher_step fuel _ _ st it) as [[out st']|];
    destruct (batcher_step_yielded fuel _ _ st it) as [out' [st''|]]; simpl.
  - destruct (Hs out st') as [H _]. specialize (H eq_refl) as [= -> ->].
    specialize (IH st').
    destruct (batcher_loop fuel _ _ st' items) as [outs|];
      destruct (batcher_loop_yielded fuel _ _ st' items) as [outs' ended]; simpl.
    + destruct (IH outs) as [H _]. specialize (H eq_refl) as [= -> ->].
      split; congruence.
    + split; [done|]. intros [= <- ->].
      by destruct (IH outs') as [_ H]; specialize (H eq_refl).
  - by destruct (Hs out st') as [H _]; specialize (H eq_refl).
  - by destruct (Hs out' st'') as [_ H]; specialize (H eq_refl).
  - split; [done | congruence].
Qed.

Lemma batcher_step_yielded_mono fuel fuel' st it :
  (fuel ≤ fuel')%nat →
  (batcher_step_yielded fuel max_total_chars max_items st it).1
    `prefix_of` (batcher_step_yielded fuel' max_total_chars max_items st it).1
  ∧ (is_Some (batcher_step_yielded fuel max_total_chars max_items st it).2 →
     batcher_step_yielded fuel' max_total_chars max_items st it
     = batcher_step_yielded fuel max_total_chars max_items st it).
Proof.
  intros Hle. unfold batcher_step_yielded. destruct st as [batch total].
  destruct (_is_blank _); [done|].
  destruct (_ >? max_total_chars); [|by destruct (_ || _)].
  destruct (while_chunks_yielded_mono fuel fuel' (paragraph it) (text_or_empty it)
              (len (text_or_empty it)) 0 Hle) as [Hp He].
  destruct (while_chunks_yielded fuel _ _ _ _ _) as [chunks ended].
  destruct (while_chunks_yielded fuel' _ _ _ _ _) as [chunks' ended'].
  simpl in *. split; [by apply prefix_app|].
  destruct ended; [|by intros [? [=]]].
  intros _. by specialize (He eq_refl) as [= -> ->].
Qed.

Lemma batcher_loop_yielded_mono fuel fuel' st items :
  (fuel ≤ fuel')%nat →
  (batcher_loop_yielded fuel max_total_chars max_items st items).1
    `prefix_of` (batcher_loop_yielded fuel' max_total_chars max_items st items).1
  ∧ ((batcher_loop_yielded fuel max_total_chars max_items st items).2 = true →
     batcher_loop_yielded fuel' max_total_chars max_items st items
     = batcher_loop_yielded fuel max_total_chars max_items st items).
Proof.
  intros Hle. revert st. induction items as [|it items IH]; intros st; simpl.
  { done. }
  destruct (batcher_step_yielded_mono fuel fuel' st it Hle) as [Hp He].
  destruct (batcher_step_yielded fuel _ _ st it) as [out [st'|]]; simpl in *.
  - rewrite (He ltac:(by eexists)).
    destruct (IH st') as [Hp' He'].
    destruct (batcher_loop_yielded fuel _ _ st' items) as [outs ended].
    destruct (batcher_loop_yielded fuel' _ _ st' items) as [outs' ended'].
    simpl in *. split; [by apply prefix_app|].
    intros ->. by specialize (He' eq_refl) as [= -> ->].
  - split; [|done].
    destruct (batcher_step_yielded fuel' _ _ st it) as [out' [st'|]]; simpl in *.
    + destruct (batcher_loop_yielded fuel' _ _ st' items) as [outs' ended'].
      simpl. by apply prefix_app_r.
    + done.
Qed.

(** Each chunk that the loop cuts has at most [max_total_chars] characters,
    when that is not negative. *)
Lemma while_chunks_yielded_bound fuel p txt n start :
  0 ≤ max_total_chars → 0 ≤ start →
  Forall (λ b, ∃ c, b = chunk_batch p c ∧ len c ≤ max_total_chars)
    (while_chunks_yielded fuel p txt n max_total_chars start).1.
Proof.
  intros Hmc. revert start. induction fuel as [|fuel IH]; intros start Hs; simpl.
  { constructor. }
  destruct (start <? n); [|constructor].
  specialize (IH (start + max_total_chars) ltac:(lia)).
  destruct (while_chunks_yielded fuel _ _ _ _ _) as [rest ended]. simpl in *.
  constructor; [|done]. eexists. split; [done|].
  rewrite slice_length by done. lia.
Qed.

Lemma batcher_step_yielded_limits fuel st it :
  0 ≤ max_total_chars → 1 ≤ max_items →
  pending_ok max_total_chars max_items st →
  Forall (λ b, b ≠ [] ∧ within_limits max_total_chars max_items b)
    (batcher_step_yielded fuel max_total_chars max_items st it).1
  ∧ ∀ st', (batcher_step_yielded fuel max_total_chars max_items st it).2 = Some st' →
           pending_ok max_total_chars max_items st'.
Proof.
  intros Hmc Hmi Hst.
  destruct (_is_blank (original_text it)) eqn:Hb;
    [|destruct (Z.gtb_spec (len (text_or_empty it)) max_total_chars) as [Hgt|Hle]].
  - pose proof (batcher_step_blank fuel max_total_chars max_items st it Hb) as E.
    apply batcher_step_yielded_ended in E. rewrite E. simpl.
    split; [constructor|]. by intros ? [= <-].
  - destruct Hst as [Hpay Hlim]. destruct st as [batch total].
    unfold batcher_step_yielded. rewrite is_blank_text_or_empty, Hb.
    destruct (Z.gtb_spec (len (text_or_empty it)) max_total_chars); [|lia].
    pose proof (while_chunks_yielded_bound fuel (paragraph it) (text_or_empty it)
                  (len (text_or_empty it)) 0 Hmc (Z.le_refl 0)) as Hch.
    destruct (while_chunks_yielded fuel _ _ _ _ _) as [chunks ended].
    simpl in *. split.
    + apply Forall_app. split.
      * apply Forall_forall. intros b [-> Hne]%yield_if_nonempty_elem. auto.
      * eapply Forall_impl; [exact Hch|]. intros b (c & -> & Hc).
        split; [done|]. unfold within_limits, chunk_batch, payload, text_or_empty.
        simpl. unfold len in *. simpl. lia.
    + intros st'. destruct ended; [|done]. intros [= <-].
      destruct batch; [by split|]. split; [done|]. by intros [].
  - destruct st as [batch total].
    pose proof (batcher_step_fits fuel max_total_chars max_items batch total it Hb Hle) as E.
    destruct (batcher_step fuel _ _ _ _) as [[out st']|] eqn:E';
      [|by destruct (_ || _)].
    destruct (batcher_step_limits _ _ _ _ _ _ _ Hmi Hst E') as [Hout Hst'].
    apply batcher_step_yielded_ended in E'. rewrite E'. simpl.
    split; [done|]. by intros ? [= <-].
Qed.

Lemma batcher_loop_yielded_limits fuel st items :
  0 ≤ max_total_chars → 1 ≤ max_items →
  pending_ok max_total_chars max_items st →
  Forall (λ b, b ≠ [] ∧ within_limits max_total_chars max_items b)
    (batcher_loop_yielded fuel max_total_chars max_items st items).1.
Proof.
  intros Hmc Hmi. revert st. induction items as [|it items IH]; intros st Hst; simpl.
  - apply Forall_forall.
    intros b [-> Hne]%yield_if_nonempty_elem. split; [done|]. by apply Hst.
  - destruct (batcher_step_yielded_limits fuel st it Hmc Hmi Hst) as [Hout Hst'].
    destruct (batcher_step_yielded fuel _ _ st it) as [out [st'|]]; simpl in *; [|done].
    specialize (IH st' (Hst' _ eq_refl)).
    destruct (batcher_loop_yielded fuel _ _ st' items) as [outs ended]. simpl in *.
    by apply Forall_app.
Qed.

End yielded.

(** What the generator has yielded by some time is a prefix of what it has
    yielded later. *)
Lemma batcher_yielded_prefix fuel fuel' items max_total_chars max_items :
  (fuel ≤ fuel')%nat →
  (batcher_yielded fuel items max_total_chars max_items).1
    `prefix_of` (batcher_yielded fuel' items max_total_chars max_items).1.
Proof. intros H. by apply batcher_loop_yielded_mono. Qed.

(** A run of the generator ends within the fuel exactly when [batcher] has a
    result, and then it has yielded the batches of that result. *)
Lemma batcher_yielded_ended fuel items max_total_chars max_items bs :
  batcher fuel items max_total_chars max_items = Some bs
  ↔ batcher_yielded fuel items max_total_chars max_items = (bs, true).
Proof. apply batcher_loop_yielded_ended. Qed.

(** With the limit 0 the unit ["ab"] is cut into empty chunks without end:
    each is a batch of its own, within both limits. *)
Example batcher_yielded_limit_zero :
  batcher_yielded 3 [mkParaRef 1 (Some [97; 98]%N)] 0 50
  = ([[mkParaRef 1 (Some [])]; [mkParaRef 1 (Some [])]; [mkParaRef 1 (Some [])]],
     false).
Proof. reflexivity. Qed.

(** * The claims about the batcher *)



(** The batches of [["a"; "x" * 7; "b"]] with the limits 3 and 50. *)
Example oversized_unit_between_units :
  batcher 8 [unit_a; mkParaRef 7 (Some (xs 7)); unit_b] 3 50
  = Some [[unit_a];
          [mkParaRef 7 (Some (xs 3))]; [mkParaRef 7 (Some (xs 3))];
          [mkParaRef 7 (Some (xs 1))];
          [unit_b]].
Proof. reflexivity. Qed.

(** C8.  The units [""], ["Halo dunia"], ["x" * 25000] with the limits 20000
    and 50: the first unit is skipped, the second is a batch of its own, the
    third is cut into two chunks of 20000 and 5000 characters, each a
    singleton batch, in this order. *)
Theorem C8_concrete_scenario (fuel : nat) :
  (3 ≤ fuel)%nat →
  batcher fuel
    [mkParaRef 1 (Some []); unit_halo; mkParaRef 3 (Some (xs 25000))]
    20000 50
  = Some [[unit_halo];
          [mkParaRef 3 (Some (xs 20000))];
          [mkParaRef 3 (Some (xs 5000))]]
  ∧ len (xs 20000) = 20000 ∧ len (xs 5000) = 5000.
Proof.
  intros Hfuel. split; [|by rewrite !len_xs].
  apply (batcher_fuel_mono 3); [|done].
  unfold batcher. cbn [batcher_loop].
  rewrite batcher_step_blank by reflexivity. cbn [mbind option_bind].
  rewrite batcher_step_fits by (reflexivity || (vm_compute; discriminate)).
  change (len (text_or_empty unit_halo)) with 10.
  change ((len (@nil ParaRef) + 1 >? 50) || (0 + 10 >? 20000)) with false.
  cbn [mbind option_bind app]. change (0 + 10) with 10.
  assert (Hnb : not_blank (mkParaRef 3 (Some (xs 25000)))).
  { by apply xs_not_blank. }
  rewrite batcher_step_long by (done || (simpl; rewrite len_xs; lia)).
  cbn [paragraph text_or_empty original_text]. rewrite len_xs.
  rewrite while_chunks_next by lia. rewrite while_chunks_next by lia.
  rewrite while_chunks_end by lia.
  rewrite !slice_xs by lia.
  reflexivity.
Qed.

Lemma C8_concrete_scenario_witness :
  batcher 3
    [mkParaRef 1 (Some []); unit_halo; mkParaRef 3 (Some (xs 25000))]
    20000 50
  = Some [[unit_halo];
          [mkParaRef 3 (Some (xs 20000))];
          [mkParaRef 3 (Some (xs 5000))]]
  ∧ len (xs 20000) = 20000 ∧ len (xs 5000) = 5000.
Proof. apply (C8_concrete_scenario 3). lia. Defined.

(** C9, as the claim states it, fails when [max_total_chars] is negative:
    with the limit -1 the first batch that the generator yields for the unit
    ["ab"] is the chunk ["ab"[0:-1]], that is ["a"], whose payload 1 is more
    than -1.  (The run does not end: [batcher] has no result for it.) *)
Lemma C9_counterexample_negative_limit :
  (batcher_yielded 1 [mkParaRef 1 (Some [97; 98]%N)] (-1) 50).1
  = [[mkParaRef 1 (Some [97%N])]]
  ∧ (batcher_yielded 4 [mkParaRef 1 (Some [97; 98]%N)] (-1) 50).1
    = [[mkParaRef 1 (Some [97%N])]; [mkParaRef 1 (Some [])];
       [mkParaRef 1 (Some [])]; [mkParaRef 1 (Some [])]]
  ∧ 1 ≤ 50
  ∧ ¬ within_limits (-1) 50 [mkParaRef 1 (Some [97%N])].
Proof.
  split; [reflexivity|]. split; [reflexivity|]. split; [lia|].
  intros [H _]. vm_compute in H. by apply H.
Qed.

(** C9, amended.  With [max_total_chars >= 0] and [max_items >= 1], every
    batch that the batcher yields is within both limits: its payload is at
    most [max_total_chars] and it has at most [max_items] items.  This holds
    for what a run that never ends has yielded by any time as well as for the
    batches of a run that ends, and for the singleton batches of the chunks
    of a long unit too: each chunk that the loop cuts has at most
    [max_total_chars] characters. *)
Theorem C9_every_batch_within_both_limits fuel items max_total_chars max_items :
  0 ≤ max_total_chars → 1 ≤ max_items →
  Forall (within_limits max_total_chars max_items)
    (batcher_yielded fuel items max_total_chars max_items).1
  ∧ (∀ bs, batcher fuel items max_total_chars max_items = Some bs →
           batcher_yielded fuel items max_total_chars max_items = (bs, true)
           ∧ Forall (within_limits max_total_chars max_items) bs)
  ∧ ∀ it,
      Forall (λ b, ∃ c, b = chunk_batch (paragraph it) c
                        ∧ len c ≤ max_total_chars)
        (while_chunks_yielded fuel (paragraph it) (text_or_empty it)
           (len (text_or_empty it)) max_total_chars 0).1.
Proof.
  intros Hmc Hmi.
  assert (Hall : Forall (within_limits max_total_chars max_items)
                   (batcher_yielded fuel items max_total_chars max_items).1).
  { eapply Forall_impl.
    - apply batcher_loop_yielded_limits; [done | done |].
      split; [done|]. by intros [].
    - by intros b [_ ?]. }
  split; [done|]. split.
  - intros bs Hbs. apply batcher_loop_yielded_ended in Hbs.
    split; [done|]. unfold batcher_yielded in Hall. by rewrite Hbs in Hall.
  - intros it. by apply while_chunks_yielded_bound.
Qed.

Lemma C9_every_batch_within_both_limits_witness :
  Forall (within_limits 3 2)
    [[unit_a; unit_b]; [mkParaRef 7 (Some (xs 3))]; [mkParaRef 7 (Some (xs 1))]]
  ∧ (∀ bs, batcher 5 [unit_a; unit_b; mkParaRef 7 (Some (xs 4))] 3 2 = Some bs →
           batcher_yielded 5 [unit_a; unit_b; mkParaRef 7 (Some (xs 4))] 3 2
           = (bs, true)
           ∧ Forall (within_limits 3 2) bs)
  ∧ ∀ it,
      Forall (λ b, ∃ c, b = chunk_batch (paragraph it) c ∧ len c ≤ 3)
        (while_chunks_yielded 5 (paragraph it) (text_or_empty it)
           (len (text_or_empty it)) 3 0).1.
Proof.
  apply (C9_every_batch_within_both_limits 5
           [unit_a; unit_b; mkParaRef 7 (Some (xs 4))] 3 2); lia.
Defined.




(** * The claims about the translation client *)

(** The failures of the [try] body are the outcomes that [raises] lists. *)
Lemma raises_attempt_fails session texts k :
  raises (session k texts) texts ↔ attempt_fails session texts k.
Proof.
  unfold attempt_fails, raises, try_body.
  destruct (session k texts) as [| | | |[xs|s|]].
  1-4,7: split; [by eexists|done].
  - split; [done|]. by intros [e ?].
  - destruct (Z.eqb_spec (len texts) 1) as [H1|Hne]; unfold len in *.
    + split; [lia|]. by intros [e ?].
    + split; [by eexists|]. lia.
Qed.

(** C4.  [libretranslate_translate_batch] returns a list whatever the
    service does: every failure of an attempt is caught.  Some number
    [fails] of attempts fail before the call ends, at most [RETRY_LIMIT];
    the failed attempt number [a] (1, 2, ...) posts the request, warns and
    sleeps [1.5 * a] seconds, and then the next attempt is made; at most
    [RETRY_LIMIT] requests are posted; an attempt that does not fail ends
    the call with its result, and when all [RETRY_LIMIT] attempts fail the
    input list is returned as it is, after the last sleep. *)
Theorem C4_bounded_retries_then_fallback (texts : list (list N))
    (session : Session) (w : World) :
  ∃ fails : nat,
    (fails ≤ RETRY_LIMIT)%nat
    ∧ (∀ k, (k < fails)%nat → raises (session (requests w + k)%nat texts) texts)
    ∧ trace (libretranslate_translate_batch texts session w).2
      = trace w
          ++ concat ((λ a : nat,
                        [Posted texts; Warned a;
                         Slept ((3 # 2) * inject_Z (Z.of_nat a))])
                       <$> seq 1 fails)
          ++ (if decide (fails < RETRY_LIMIT)%nat then [Posted texts] else [Errored])
    ∧ requests (libretranslate_translate_batch texts session w).2
      = (requests w + (if decide (fails < RETRY_LIMIT)%nat
                       then fails + 1 else RETRY_LIMIT))%nat
    ∧ ((fails < RETRY_LIMIT)%nat →
       ¬ raises (session (requests w + fails)%nat texts) texts
       ∧ try_body (session (requests w + fails)%nat texts) texts
         = inr (libretranslate_translate_batch texts session w).1)
    ∧ (fails = RETRY_LIMIT →
       (libretranslate_translate_batch texts session w).1 = texts)
    ∧ ((∀ k, (k < RETRY_LIMIT)%nat →
             raises (session (requests w + k)%nat texts) texts) →
       fails = RETRY_LIMIT).
Proof.
  unfold libretranslate_translate_batch.
  destruct (attempt_loop_spec session texts (seq 1 RETRY_LIMIT) w)
    as (fails & Hle & Hfail & Htr & Hreq & Hok & Hall).
  rewrite length_seq in *. exists fails.
  assert (Hnot : (fails < RETRY_LIMIT)%nat →
                 ¬ raises (session (requests w + fails)%nat texts) texts).
  { intros Hlt [e He]%raises_attempt_fails. rewrite (Hok Hlt) in He. discriminate. }
  split; [done|]. split; [|split; [|split; [|split; [|split]]]].
  - intros k Hk. by apply raises_attempt_fails, Hfail.
  - rewrite Htr, take_seq. by rewrite Nat.min_l by done.
  - rewrite Hreq. case_decide; lia.
  - intros Hlt. split; [by apply Hnot | by apply Hok].
  - done.
  - intros Hallfail. destruct (decide (fails < RETRY_LIMIT)%nat) as [Hlt|]; [|lia].
    destruct (Hnot Hlt). by apply Hallfail.
Qed.

(** The call when the service cannot be reached: four requests, the sleeps
    of 1.5, 3, 4.5 and 6 seconds, and the texts as they were. *)
Example translate_batch_unreachable (texts : list (list N)) :
  libretranslate_translate_batch texts unreachable w0
  = (texts,
     mkWorld 4
       [Posted texts; Warned 1; Slept (3 # 2);
        Posted texts; Warned 2; Slept (6 # 2);
        Posted texts; Warned 3; Slept (9 # 2);
        Posted texts; Warned 4; Slept (12 # 2); Errored]).
Proof. reflexivity. Qed.

(** C5, at the failing input: two texts are sent and the service answers
    with a list of one string.  The list is returned as the result after one
    request: it is not taken as a failure and not retried, and the result
    has one element for two inputs. *)
Theorem C5_wrong_count_is_returned :
  libretranslate_translate_batch [[97%N]; [98%N]] one_answer w0
  = ([[120%N]], mkWorld 1 [Posted [[97%N]; [98%N]]]).
Proof. reflexivity. Qed.

(** * The claims about the whole run *)

(** C1, at the failing input: one unit ["a"], and a service that answers
    with an empty list.  The unit is not blank and is sent in a batch, the
    empty answer is taken as the result, nothing reaches [accum], and the
    paragraph of the unit gets no commit. *)
Theorem C1_short_answer_drops_commit :
  ∃ r, translate_docx 2 empty_answer [unit_a] ∅ w0 = Some r
       ∧ filter not_blank [unit_a] = [unit_a]
       ∧ run_batches r = [[unit_a]]
       ∧ run_accum r = ∅
       ∧ run_commits r = [].
Proof. eexists. split; [reflexivity|]. by vm_compute. Qed.

(** C3.  The round trip: when the translation returns its input (as when
    the service cannot be reached) and no two non-blank units share a
    paragraph, every non-blank unit is committed once, with its original
    text; the text saved at its paragraph is the original text; and the
    entry of its paragraph in [accum], concatenated, is the original text,
    also for a unit that was split. *)
Theorem C3_round_trip fuel session all_paras doc w :
  (∀ texts w', (libretranslate_translate_batch texts session w').1 = texts) →
  NoDup (paragraph <$> filter not_blank all_paras) →
  Forall (λ u, len (text_or_empty u) < Z.of_nat fuel) all_paras →
  ∃ r, translate_docx fuel session all_paras doc w = Some r
       ∧ run_commits r
         = (λ u, (paragraph u, text_or_empty u)) <$> filter not_blank all_paras
       ∧ ∀ u, u ∈ all_paras → not_blank u →
           run_doc r !! paragraph u = original_text u
           ∧ ∃ chunks, run_accum r !! obj_id (paragraph u) = Some chunks
                       ∧ concat chunks = text_or_empty u.
Proof.
  intros Hid Hnd Hfuel.
  destruct (translate_docx_total fuel session all_paras doc w Hfuel) as [r Hr].
  exists r. split; [done|].
  pose proof (identity_length session Hid) as Hlen.
  assert (Hat : ∀ u, u ∈ filter not_blank all_paras →
            ∃ a arr, arrivals_at (paragraph u) (arrivals session (run_batches r) w)
                     = a :: arr
                     ∧ concat (a :: arr).*2 = text_or_empty u).
  { intros u Hu.
    destruct (run_arrivals_at _ _ _ _ _ _ (paragraph u) Hlen Hr) as [Hcat Hnil].
    rewrite (units_at_NoDup _ _ Hnd Hu) in Hcat, Hnil. simpl in Hcat.
    rewrite app_nil_r in Hcat.
    destruct (arrivals_at _ _) as [|a arr] eqn:Earr; [by destruct Hnil as [Hnil _]; specialize (Hnil eq_refl)|].
    exists a, arr. split; [done|]. rewrite <- Hcat, <- Earr. f_equal.
    unfold arrivals_at. rewrite arrivals_identity by done.
    generalize (concat (run_batches r)). clear.
    induction l as [|x l IH]; [done|].
    rewrite fmap_cons, !filter_cons. cbn [fst].
    destruct (decide (paragraph x = paragraph u)); [rewrite !fmap_cons; cbn [fst snd]|]; by rewrite IH. }
  split.
  - rewrite (commits_follow_units _ _ _ _ _ _ Hlen Hr).
    apply list_fmap_ext. intros i u Hu%list_elem_of_lookup_2.
    destruct (Hat u Hu) as (a & arr & -> & ->). done.
  - intros u Hin Hnb.
    assert (Hu : u ∈ filter not_blank all_paras) by by apply list_elem_of_filter.
    destruct (Hat u Hu) as (a & arr & Harr & Hcat).
    pose proof (run_accum_lookup _ _ _ _ _ _ (paragraph u) Hr) as Hacc.
    rewrite Harr in Hacc.
    destruct (translate_docx_Some _ _ _ _ _ _ Hr) as (_ & _ & _ & Hdoc).
    split; [|by eexists].
    rewrite Hdoc, Hacc, Hcat.
    rewrite decide_True by by apply list_elem_of_fmap_2.
    by destruct (not_blank_has_text u Hnb) as [-> _].
Qed.

Lemma C3_round_trip_witness :
  ∃ r, translate_docx 11 unreachable [mkParaRef 1 (Some []); unit_halo; mkParaRef 5 (Some [97; 32; 98]%N)] ∅ w0 = Some r
       ∧ run_commits r
         = (λ u, (paragraph u, text_or_empty u))
             <$> filter not_blank [mkParaRef 1 (Some []); unit_halo; mkParaRef 5 (Some [97; 32; 98]%N)]
       ∧ ∀ u, u ∈ [mkParaRef 1 (Some []); unit_halo; mkParaRef 5 (Some [97; 32; 98]%N)] → not_blank u →
           run_doc r !! paragraph u = original_text u
           ∧ ∃ chunks, run_accum r !! obj_id (paragraph u) = Some chunks
                       ∧ concat chunks = text_or_empty u.
Proof.
  apply (C3_round_trip 11 unreachable
           [mkParaRef 1 (Some []); unit_halo; mkParaRef 5 (Some [97; 32; 98]%N)] ∅ w0).
  - exact unreachable_identity.
  - apply (bool_decide_unpack _). vm_compute. exact I.
  - repeat constructor; vm_compute; reflexivity.
Defined.

(** C7, as the claim states it, fails: the entry of a paragraph is not
    removed when the paragraph is committed.  After the run on the unit
    ["a"] the paragraph has been committed and its entry is still in
    [accum]. *)
Lemma C7_counterexample_entry_kept :
  ∃ r, translate_docx 2 unreachable [unit_a] ∅ w0 = Some r
       ∧ run_commits r = [(1, [97%N])]
       ∧ run_accum r !! obj_id 1 = Some [[97%N]].
Proof. eexists. split; [reflexivity|]. by vm_compute. Qed.

(** C7, amended.  Every entry of [accum] is committed by the writeback
    pass: the concatenation of the entry is written to its paragraph, once
    for each non-blank unit at the paragraph, so exactly once when no two
    non-blank units share a paragraph; a paragraph without an entry gets no
    commit; and then no paragraph is committed twice.  The entry is read,
    not removed: [accum] is at the end of the run what the accumulation made
    it. *)
Theorem C7_entry_read_not_removed fuel session all_paras doc w :
  Forall (λ u, len (text_or_empty u) < Z.of_nat fuel) all_paras →
  ∃ r, translate_docx fuel session all_paras doc w = Some r
       ∧ run_accum r = foldl accum_append ∅ (arrivals session (run_batches r) w)
       ∧ (∀ (p : Paragraph) chunks,
            run_accum r !! obj_id p = Some chunks →
            ∃ n : nat,
              n = length (units_at p (filter not_blank all_paras))
              ∧ (1 ≤ n)%nat
              ∧ filter (λ c, c.1 = p) (run_commits r)
                = replicate n (p, concat chunks)
              ∧ run_doc r !! p = Some (concat chunks)
              ∧ (NoDup (paragraph <$> filter not_blank all_paras) → n = 1%nat))
       ∧ (∀ p : Paragraph,
            run_accum r !! obj_id p = None →
            filter (λ c, c.1 = p) (run_commits r) = [])
       ∧ (NoDup (paragraph <$> filter not_blank all_paras) →
          NoDup (run_commits r).*1).
Proof.
  intros Hfuel.
  destruct (translate_docx_total fuel session all_paras doc w Hfuel) as [r Hr].
  exists r. split; [done|].
  destruct (translate_docx_Some _ _ _ _ _ _ Hr) as (_ & Hacc & Hcom & Hdoc).
  split; [done|]. split; [|split].
  - intros p chunks Hp.
    pose proof (accum_entry_unit _ _ _ _ _ _ _ _ Hr Hp) as Hin.
    exists (length (units_at p (filter not_blank all_paras))).
    split; [done|]. split; [by apply units_at_elem|].
    split; [by rewrite Hcom, commits_at, Hp|].
    split; [by rewrite Hdoc, Hp, decide_True|].
    intros Hnd. apply list_elem_of_fmap in Hin as (u & -> & Hu).
    by rewrite (units_at_NoDup _ _ Hnd Hu).
  - intros p Hp. by rewrite Hcom, commits_at, Hp.
  - intros Hnd. rewrite Hcom. eapply sublist_NoDup; [exact Hnd|].
    apply commits_sublist.
Qed.

Lemma C7_entry_read_not_removed_witness :
  ∃ r, translate_docx 2 unreachable [unit_a; unit_b] ∅ w0 = Some r
       ∧ run_accum r
         = foldl accum_append ∅ (arrivals unreachable (run_batches r) w0)
       ∧ (∀ (p : Paragraph) chunks,
            run_accum r !! obj_id p = Some chunks →
            ∃ n : nat,
              n = length (units_at p (filter not_blank [unit_a; unit_b]))
              ∧ (1 ≤ n)%nat
              ∧ filter (λ c, c.1 = p) (run_commits r)
                = replicate n (p, concat chunks)
              ∧ run_doc r !! p = Some (concat chunks)
              ∧ (NoDup (paragraph <$> filter not_blank [unit_a; unit_b]) →
                 n = 1%nat))
       ∧ (∀ p : Paragraph,
            run_accum r !! obj_id p = None →
            filter (λ c, c.1 = p) (run_commits r) = [])
       ∧ (NoDup (paragraph <$> filter not_blank [unit_a; unit_b]) →
          NoDup (run_commits r).*1).
Proof.
  apply (C7_entry_read_not_removed 2 unreachable [unit_a; unit_b] ∅ w0).
  repeat constructor; vm_compute; reflexivity.
Defined.

(** C10.  Say two or more non-blank units are at the paragraph [p], and
    every translation result has the length of its input.  Then the
    translations of these units arrive under the one key of [p], in the
    order of the units; the entry is the list of these translations; and the
    writeback pass commits the concatenation of the whole entry to [p] once
    for each of the units: the same text, as many times as there are units
    at [p]. *)
Theorem C10_shared_paragraph fuel session all_paras doc w (p : Paragraph) :
  (∀ texts w', length (libretranslate_translate_batch texts session w').1
               = length texts) →
  Forall (λ u, len (text_or_empty u) < Z.of_nat fuel) all_paras →
  (2 ≤ length (units_at p (filter not_blank all_paras)))%nat →
  ∃ r arr,
    translate_docx fuel session all_paras doc w = Some r
    ∧ arr = arrivals_at p (arrivals session (run_batches r) w)
    ∧ concat (text_or_empty <$> arr.*1)
      = concat (text_or_empty <$> units_at p (filter not_blank all_paras))
    ∧ run_accum r !! obj_id p = Some (arr.*2)
    ∧ filter (λ c, c.1 = p) (run_commits r)
      = replicate (length (units_at p (filter not_blank all_paras)))
          (p, concat (arr.*2)).
Proof.
  intros Hlen Hfuel Htwo.
  destruct (translate_docx_total fuel session all_paras doc w Hfuel) as [r Hr].
  exists r, (arrivals_at p (arrivals session (run_batches r) w)).
  split; [done|]. split; [done|].
  destruct (run_arrivals_at _ _ _ _ _ _ p Hlen Hr) as [Hcat Hnil].
  split; [done|].
  pose proof (run_accum_lookup _ _ _ _ _ _ p Hr) as Hacc.
  destruct (arrivals_at p _) as [|a arr] eqn:Earr.
  { rewrite (proj1 Hnil eq_refl) in Htwo. simpl in Htwo. lia. }
  split; [done|].
  destruct (translate_docx_Some _ _ _ _ _ _ Hr) as (_ & _ & -> & _).
  by rewrite commits_at, Hacc.
Qed.

Lemma C10_shared_paragraph_witness :
  ∃ r arr,
    translate_docx 2 unreachable [unit_a; unit_a'] ∅ w0 = Some r
    ∧ arr = arrivals_at 1 (arrivals unreachable (run_batches r) w0)
    ∧ concat (text_or_empty <$> arr.*1)
      = concat (text_or_empty <$> units_at 1 (filter not_blank [unit_a; unit_a']))
    ∧ run_accum r !! obj_id 1 = Some (arr.*2)
    ∧ filter (λ c, c.1 = 1) (run_commits r)
      = replicate (length (units_at 1 (filter not_blank [unit_a; unit_a'])))
          (1, concat (arr.*2)).
Proof.
  apply (C10_shared_paragraph 2 unreachable [unit_a; unit_a'] ∅ w0 1).
  - apply identity_length, unreachable_identity.
  - repeat constructor; vm_compute; reflexivity.
  - vm_compute. lia.
Defined.

(** The run of C10's witness: both units are at paragraph 1, the entry is
    [["a"; "b"]], and ["ab"] is committed to the paragraph twice. *)
Example shared_paragraph_run :
  ∃ r, translate_docx 2 unreachable [unit_a; unit_a'] ∅ w0 = Some r
       ∧ run_accum r !! obj_id 1 = Some [[97%N]; [98%N]]
       ∧ run_commits r = [(1, [97; 98]%N); (1, [97; 98]%N)].
Proof. eexists. split; [reflexivity|]. by vm_compute. Qed.


(** * Further properties *)

(** ** The batcher: ending, order and content *)

(** X2.  With a positive limit and fuel above the length of every text, the
    batcher ends, and more fuel does not change what it yields. *)
Theorem batcher_terminates fuel items max_total_chars max_items :
  0 < max_total_chars →
  Forall (λ it, len (text_or_empty it) < Z.of_nat fuel) items →
  ∃ bs, batcher fuel items max_total_chars max_items = Some bs
        ∧ ∀ fuel', (fuel ≤ fuel')%nat →
            batcher fuel' items max_total_chars max_items = Some bs.
Proof.
  intros Hmc Hf.
  destruct (batcher_total fuel items max_total_chars max_items Hmc Hf) as [bs Hbs].
  exists bs. split; [done|]. intros fuel' Hle. by eapply batcher_fuel_mono.
Qed.

Lemma batcher_terminates_witness :
  ∃ bs, batcher 5 [unit_a; mkParaRef 7 (Some (xs 4))] 3 2 = Some bs
        ∧ ∀ fuel', (5 ≤ fuel')%nat →
            batcher fuel' [unit_a; mkParaRef 7 (Some (xs 4))] 3 2 = Some bs.
Proof.
  apply (batcher_terminates 5 [unit_a; mkParaRef 7 (Some (xs 4))] 3 2);
    [lia | repeat constructor; vm_compute; reflexivity].
Defined.

Lemma batcher_loop_diverges fuel max_total_chars max_items st items :
  max_total_chars ≤ 0 → Exists not_blank items →
  batcher_loop fuel max_total_chars max_items st items = None.
Proof.
  intros Hmc Hex. revert st.
  induction items as [|it items IH]; intros st; [by apply Exists_nil in Hex|].
  simpl. destruct (decide (not_blank it)) as [Hnb|Hb].
  - by rewrite batcher_step_diverges.
  - apply Exists_cons in Hex as [?|Hex]; [done|].
    rewrite batcher_step_blank; [|unfold not_blank in Hb; by destruct (_is_blank _)].
    simpl. by rewrite IH.
Qed.

(** X3.  With a limit of 0 or less and a unit that is not blank, the batcher
    never ends: the splitting loop does not advance, whatever the fuel. *)
Theorem batcher_never_ends fuel items max_total_chars max_items :
  max_total_chars ≤ 0 → Exists not_blank items →
  batcher fuel items max_total_chars max_items = None.
Proof. apply batcher_loop_diverges. Qed.

Lemma batcher_never_ends_witness : batcher 1000 [unit_a] 0 50 = None.
Proof.
  apply (batcher_never_ends 1000 [unit_a] 0 50); [lia|].
  apply Exists_cons_hd. reflexivity.
Defined.

(** X4.  When every unit is blank (or there is none), the batcher yields
    nothing, for all limits and all fuel. *)
Theorem batcher_all_blank fuel items max_total_chars max_items :
  Forall (λ it, _is_blank (original_text it) = true) items →
  batcher fuel items max_total_chars max_items = Some [].
Proof.
  intros Hall. unfold batcher. generalize (0 : Z).
  induction Hall as [|it items Hit _ IH]; intros total; [done|].
  cbn [batcher_loop]. rewrite batcher_step_blank by done. simpl. by rewrite IH.
Qed.

Lemma batcher_all_blank_witness :
  batcher 0 [mkParaRef 1 None; mkParaRef 2 (Some [32; 9]%N)] (-5) 0 = Some [].
Proof.
  apply (batcher_all_blank 0 [mkParaRef 1 None; mkParaRef 2 (Some [32; 9]%N)] (-5) 0).
  repeat constructor.
Defined.

(** The batches, put end to end, are the pending batch and then the exact
    pieces of the units that are not blank. *)
Lemma batcher_loop_flatten_exact fuel max_total_chars max_items st items bs :
  batcher_loop fuel max_total_chars max_items st items = Some bs →
  ∃ pss, Forall2 (pieces_at_limit fuel max_total_chars) (filter not_blank items) pss
         ∧ concat bs = st.1 ++ concat pss.
Proof.
  revert st bs.
  induction items as [|it items IH]; intros st bs; simpl.
  - intros [= <-]. exists []. split; [constructor|].
    by rewrite concat_yield_if_nonempty, app_nil_r.
  - destruct (batcher_step fuel _ _ _ _) as [[out st']|] eqn:E; [|discriminate].
    simpl. destruct (batcher_loop fuel _ _ _ _) as [outs|] eqn:E'; [|discriminate].
    intros [= <-]. destruct (IH _ _ E') as (pss & Hpss & Hcat).
    rewrite concat_app, Hcat. destruct st as [batch total]. simpl.
    rewrite filter_cons. destruct (decide (not_blank it)) as [Hnb|Hb].
    + destruct (Z.gtb_spec (len (text_or_empty it)) max_total_chars) as [Hgt|Hle].
      * apply batcher_step_oversized in E as (Hmc & chunks & Ech & [= -> ->]);
          [|done|lia].
        destruct (while_chunks_sound _ _ _ _ _ _ Hmc (Z.le_refl 0) Ech)
          as (cs & -> & _).
        exists (((λ c, mkParaRef (paragraph it) (Some c)) <$> cs) :: pss).
        assert (Hsingle : chunk_batch (paragraph it) <$> cs
                  = (λ x, [x]) <$> ((λ c, mkParaRef (paragraph it) (Some c)) <$> cs)).
        { by rewrite <- list_fmap_compose. }
        split.
        { constructor; [|done]. unfold pieces_at_limit.
          destruct (Z.gtb_spec (len (text_or_empty it)) max_total_chars); [|lia].
          by rewrite Ech, Hsingle. }
        rewrite concat_app, concat_yield_if_nonempty, Hsingle. simpl.
        assert (Hc : ∀ l : list ParaRef, concat ((λ x, [x]) <$> l) = l).
        { clear. induction l as [|x l IH]; [done|]. rewrite fmap_cons. simpl. by f_equal. }
        rewrite Hc. destruct batch; simpl; by rewrite <- ?app_assoc.
      * exists ([it] :: pss). split.
        { constructor; [|done]. unfold pieces_at_limit.
          by destruct (Z.gtb_spec (len (text_or_empty it)) max_total_chars); [lia|]. }
        rewrite batcher_step_fits in E by done.
        destruct (_ || _); injection E as <- <-; simpl.
        -- by rewrite concat_yield_if_nonempty.
        -- by rewrite <- app_assoc.
    + exists pss. split; [done|].
      rewrite batcher_step_blank in E; [|unfold not_blank in Hb; by destruct (_is_blank _)].
      by injection E as <- <-.
Qed.

(** Without a unit longer than the limit the splitting loop is never entered:
    the batcher returns whatever the fuel. *)
Lemma batcher_loop_fits_total fuel max_total_chars max_items st items :
  Forall (λ it, len (text_or_empty it) ≤ max_total_chars) items →
  is_Some (batcher_loop fuel max_total_chars max_items st items).
Proof.
  intros Hfit. revert st.
  induction Hfit as [|it items Hit _ IH]; intros [batch total]; [by eexists|].
  cbn [batcher_loop].
  destruct (_is_blank (original_text it)) eqn:Hb.
  - rewrite batcher_step_blank by done. cbn [mbind option_bind].
    destruct (IH (batch, total)) as [outs ->]. by eexists.
  - rewrite batcher_step_fits by done.
    destruct (_ || _); cbn [mbind option_bind].
    + destruct (IH ([it], len (text_or_empty it))) as [outs ->]. by eexists.
    + destruct (IH (batch ++ [it], total + len (text_or_empty it))) as [outs ->].
      by eexists.
Qed.

(** X5.  When no unit is longer than the limit, the batcher returns, with
    any fuel, and the batches put end to end are exactly the units that are
    not blank, in their order: nothing is reordered, dropped or repeated. *)
Theorem batcher_keeps_units fuel items max_total_chars max_items :
  Forall (λ it, len (text_or_empty it) ≤ max_total_chars) items →
  ∃ bs, batcher fuel items max_total_chars max_items = Some bs
        ∧ concat bs = filter not_blank items.
Proof.
  intros Hfit.
  destruct (batcher_loop_fits_total fuel max_total_chars max_items ([], 0) items Hfit)
    as [bs Hbs].
  exists bs. split; [done|].
  apply batcher_loop_flatten_exact in Hbs as (pss & Hpss & ->). simpl.
  assert (Hfit' : Forall (λ it, len (text_or_empty it) ≤ max_total_chars)
                    (filter not_blank items)).
  { rewrite Forall_forall in Hfit |- *.
    intros u [_ Hu]%list_elem_of_filter. by apply Hfit. }
  clear Hfit. induction Hpss as [|u ps units pss Hp _ IH]; [done|].
  apply Forall_cons in Hfit' as [Hu Hrest]. simpl. rewrite (IH Hrest).
  unfold pieces_at_limit in Hp.
  destruct (Z.gtb_spec (len (text_or_empty u)) max_total_chars); [lia|]. by subst ps.
Qed.

Lemma batcher_keeps_units_witness :
  ∃ bs, batcher 0 [unit_a; mkParaRef 9 None; unit_b; mkParaRef 5 (Some (xs 3))] 3 2
        = Some bs
        ∧ concat bs
          = filter not_blank
              [unit_a; mkParaRef 9 None; unit_b; mkParaRef 5 (Some (xs 3))].
Proof.
  apply (batcher_keeps_units 0
           [unit_a; mkParaRef 9 None; unit_b; mkParaRef 5 (Some (xs 3))] 3 2).
  repeat constructor; vm_compute; discriminate.
Defined.

(** The batches of that run, written out. *)
Example batcher_keeps_units_run :
  batcher 0 [unit_a; mkParaRef 9 None; unit_b; mkParaRef 5 (Some (xs 3))] 3 2
  = Some [[unit_a; unit_b]; [mkParaRef 5 (Some (xs 3))]].
Proof. reflexivity. Qed.

(** X6.  The texts of all batch items, put end to end, are the texts of the
    units that are not blank, put end to end: splitting loses and adds no
    character. *)
Theorem batcher_keeps_text fuel items max_total_chars max_items bs :
  batcher fuel items max_total_chars max_items = Some bs →
  concat (text_or_empty <$> concat bs)
  = concat (text_or_empty <$> filter not_blank items).
Proof.
  intros (pss & Hpss & ->)%batcher_flatten.
  induction Hpss as [|u ps units pss (_ & _ & Hcat) _ IH]; [done|].
  simpl. by rewrite fmap_app, concat_app, IH, Hcat.
Qed.

Lemma batcher_keeps_text_witness :
  concat (text_or_empty <$>
            concat [[unit_a]; [mkParaRef 7 (Some (xs 3))]; [mkParaRef 7 (Some (xs 1))]])
  = concat (text_or_empty <$> filter not_blank [unit_a; mkParaRef 7 (Some (xs 4))]).
Proof.
  apply (batcher_keeps_text 5 [unit_a; mkParaRef 7 (Some (xs 4))] 3 2).
  reflexivity.
Defined.


Lemma payload_nonneg (b : list ParaRef) : 0 ≤ payload b.
Proof. rewrite payload_concat_text. apply len_nonneg. Qed.

Lemma batcher_loop_one_batch fuel max_total_chars max_items batch total items :
  payload batch = total →
  payload (batch ++ filter not_blank items) ≤ max_total_chars →
  len (batch ++ filter not_blank items) ≤ max_items →
  batcher_loop fuel max_total_chars max_items (batch, total) items
  = Some (yield_if_nonempty (batch ++ filter not_blank items)).
Proof.
  revert batch total.
  induction items as [|it items IH]; intros batch total Htot Hpay Hlen.
  - simpl. by rewrite app_nil_r.
  - cbn [batcher_loop]. rewrite filter_cons in Hpay, Hlen |- *.
    destruct (decide (not_blank it)) as [Hnb|Hb].
    + rewrite !payload_app in Hpay. rewrite !len_app, len_cons in Hlen.
      change (payload (it :: filter not_blank items))
        with (len (text_or_empty it) + payload (filter not_blank items)) in Hpay.
      pose proof (payload_nonneg batch).
      pose proof (payload_nonneg (filter not_blank items)).
      pose proof (len_nonneg (filter not_blank items)).
      pose proof (len_nonneg (text_or_empty it)).
      rewrite batcher_step_fits by (done || lia).
      destruct (Z.gtb_spec (len batch + 1) max_items); [lia|].
      destruct (Z.gtb_spec (total + len (text_or_empty it)) max_total_chars); [lia|].
      simpl. rewrite IH.
      * by rewrite <- app_assoc.
      * rewrite payload_app. simpl. lia.
      * rewrite <- app_assoc, !payload_app. simpl. lia.
      * rewrite <- app_assoc, !len_app. change (len [it]) with 1. lia.
    + rewrite batcher_step_blank; [|unfold not_blank in Hb; by destruct (_is_blank _)].
      simpl. by rewrite IH.
Qed.

(** X7.  When the units that are not blank fit together within both limits,
    the batcher yields them as one batch, and yields nothing when there is
    none; no fuel is needed. *)
Theorem batcher_one_batch fuel items max_total_chars max_items :
  payload (filter not_blank items) ≤ max_total_chars →
  len (filter not_blank items) ≤ max_items →
  batcher fuel items max_total_chars max_items
  = Some (if decide (filter not_blank items = []) then []
          else [filter not_blank items]).
Proof.
  intros Hpay Hlen. unfold batcher.
  rewrite batcher_loop_one_batch by done. simpl.
  by destruct (filter not_blank items).
Qed.

Lemma batcher_one_batch_witness :
  batcher 0 [unit_a; mkParaRef 9 (Some []); unit_halo] 20000 50
  = Some [[unit_a; unit_halo]].
Proof.
  apply (batcher_one_batch 0 [unit_a; mkParaRef 9 (Some []); unit_halo] 20000 50);
    vm_compute; discriminate.
Defined.

Lemma while_chunks_singletons fuel p txt n max_total_chars start chunks :
  while_chunks fuel p txt n max_total_chars start = Some chunks →
  Forall (λ b, length b = 1%nat) chunks.
Proof.
  revert start chunks. induction fuel as [|fuel IH]; intros start chunks; simpl; [done|].
  destruct (start <? n); [|by intros [= <-]].
  destruct (while_chunks fuel _ _ _ _ _) as [rest|] eqn:E; [|done].
  intros [= <-]. constructor; [done|]. by eapply IH.
Qed.

Lemma batcher_loop_singletons fuel max_total_chars max_items st items bs :
  max_items ≤ 0 → (length st.1 ≤ 1)%nat →
  batcher_loop fuel max_total_chars max_items st items = Some bs →
  Forall (λ b, length b = 1%nat) bs.
Proof.
  intros Hmi. revert st bs.
  induction items as [|it items IH]; intros [batch total] bs Hst; simpl in Hst.
  - simpl. intros [= <-]. destruct batch as [|x [|y batch]]; simpl in *; [done| |lia].
    by repeat constructor.
  - cbn [batcher_loop].
    destruct (batcher_step fuel _ _ _ _) as [[out st']|] eqn:E; [|discriminate].
    simpl. destruct (batcher_loop fuel _ _ _ _) as [outs|] eqn:E'; [|discriminate].
    intros [= <-].
    assert (Hyield : Forall (λ b, length b = 1%nat) (yield_if_nonempty batch)).
    { destruct batch as [|x [|y batch]]; simpl in *; [done| |lia]. by repeat constructor. }
    assert (Hout : Forall (λ b, length b = 1%nat) out ∧ (length st'.1 ≤ 1)%nat).
    { destruct (decide (not_blank it)) as [Hnb|Hb].
      - destruct (Z.gtb_spec (len (text_or_empty it)) max_total_chars) as [Hgt|Hle].
        + apply batcher_step_oversized in E as (_ & chunks & Ech & [= -> ->]);
            [|done|lia].
          split; [|by destruct batch; simpl; lia].
          apply Forall_app. split; [done|]. by eapply while_chunks_singletons.
        + rewrite batcher_step_fits in E by done.
          pose proof (len_nonneg batch).
          destruct (Z.gtb_spec (len batch + 1) max_items); [|lia].
          simpl in E. injection E as <- <-. split; [done|]. simpl. lia.
      - rewrite batcher_step_blank in E; [|unfold not_blank in Hb; by destruct (_is_blank _)].
        injection E as <- <-. by split. }
    destruct Hout as [Hout Hst'].
    apply Forall_app. split; [done|]. by eapply IH.
Qed.

(** X8.  With [max_items] of 0 or less, every batch that a run of the
    batcher yields has exactly one item: each unit is sent on its own. *)
Theorem batcher_singletons fuel items max_total_chars max_items bs :
  max_items ≤ 0 →
  batcher fuel items max_total_chars max_items = Some bs →
  Forall (λ b, length b = 1%nat) bs.
Proof. intros Hmi. apply batcher_loop_singletons; [done | simpl; lia]. Qed.

Lemma batcher_singletons_witness :
  Forall (λ b : list ParaRef, length b = 1%nat) [[unit_a]; [unit_b]; [unit_halo]].
Proof.
  apply (batcher_singletons 0 [unit_a; unit_b; unit_halo] 20000 0);
    [lia | reflexivity].
Defined.


(** ** The translation client: lengths, first success, time slept *)

(** X9.  When no list that the service answers with has another length
    than the list of texts sent, the result has the length of the input. *)
Theorem translate_batch_keeps_length texts session w :
  (∀ k xs, session k texts = Data (TTList xs) → length xs = length texts) →
  length (libretranslate_translate_batch texts session w).1 = length texts.
Proof. apply attempt_loop_length. Qed.

Lemma translate_batch_keeps_length_witness :
  length (libretranslate_translate_batch [[97%N]; [98%N]] (translating reverse) w0).1
  = length [[97%N]; [98%N]].
Proof.
  apply (translate_batch_keeps_length [[97%N]; [98%N]] (translating reverse) w0).
  intros k xs [= <-]. reflexivity.
Defined.

(** X10.  The first attempt that succeeds decides: when the attempts before
    attempt [k] fail and attempt [k] gives a list, that list is the result,
    [k + 1] requests are posted, and the trace has the [k] failed attempts
    and the last request, and no fallback. *)
Theorem first_success_wins texts session w (k : nat) out :
  (k < RETRY_LIMIT)%nat →
  (∀ j, (j < k)%nat → attempt_fails session texts (requests w + j)) →
  try_body (session (requests w + k)%nat texts) texts = inr out →
  (libretranslate_translate_batch texts session w).1 = out
  ∧ requests (libretranslate_translate_batch texts session w).2
    = (requests w + k + 1)%nat
  ∧ trace (libretranslate_translate_batch texts session w).2
    = trace w ++ concat (failed_attempt texts <$> seq 1 k) ++ [Posted texts].
Proof.
  intros Hk Hfail Hok. unfold libretranslate_translate_batch.
  destruct (attempt_loop_spec session texts (seq 1 RETRY_LIMIT) w)
    as (fails & Hle & Hfails & Htr & Hreq & Hres & _).
  rewrite length_seq in *.
  assert (fails = k) as ->.
  { destruct (Nat.lt_trichotomy fails k) as [Hlt|[?|Hgt]]; [|done|].
    - destruct (Hfail fails Hlt) as [e He].
      rewrite Hres in He by lia. discriminate.
    - destruct (Hfails k Hgt) as [e He]. rewrite Hok in He. discriminate. }
  specialize (Hres Hk). rewrite Hok in Hres.
  split; [congruence|]. split.
  - rewrite Hreq. rewrite decide_True by done. lia.
  - rewrite Htr, take_seq, Nat.min_l by lia. by rewrite decide_True by done.
Qed.

(** A service whose first three requests fail and whose fourth is
    answered. *)
Lemma first_success_wins_witness :
  let session : Session :=
    λ k texts, if (k <? 3)%nat then BadStatus else translating reverse k texts in
  (libretranslate_translate_batch [[97; 98]%N] session w0).1 = [[98; 97]%N]
  ∧ requests (libretranslate_translate_batch [[97; 98]%N] session w0).2
    = (requests w0 + 3 + 1)%nat
  ∧ trace (libretranslate_translate_batch [[97; 98]%N] session w0).2
    = trace w0 ++ concat (failed_attempt [[97; 98]%N] <$> seq 1 3)
        ++ [Posted [[97; 98]%N]].
Proof.
  intros session.
  apply (first_success_wins [[97; 98]%N] session w0 3 [[98; 97]%N]).
  - unfold RETRY_LIMIT. lia.
  - intros j Hj. exists HTTPError.
    destruct j as [|[|[|j]]]; [reflexivity..|lia].
  - reflexivity.
Defined.

(** X11.  A service that answers with one string: a batch of exactly one
    text gets the string, at the first request; a batch of any other length
    falls back to its own texts after [RETRY_LIMIT] requests. *)
Theorem string_answer_only_for_one_text (s : list N) (texts : list (list N)) w :
  (length texts = 1%nat →
   libretranslate_translate_batch texts (string_answer s) w = ([s], post texts w))
  ∧ (length texts ≠ 1%nat →
     (libretranslate_translate_batch texts (string_answer s) w).1 = texts
     ∧ requests (libretranslate_translate_batch texts (string_answer s) w).2
       = (requests w + RETRY_LIMIT)%nat).
Proof.
  split.
  - intros H1. unfold libretranslate_translate_batch. simpl.
    destruct (Z.eqb_spec (len texts) 1) as [|Hne]; [done|].
    unfold len in Hne. lia.
  - intros Hne.
    assert (Hf : ∀ k, attempt_fails (string_answer s) texts k).
    { intros k. exists ValueError. apply try_body_str_count_checked.
      unfold len. lia. }
    unfold libretranslate_translate_batch.
    destruct (attempt_loop_spec (string_answer s) texts (seq 1 RETRY_LIMIT) w)
      as (fails & Hle & _ & _ & Hreq & Hres & Hall).
    rewrite length_seq in *.
    assert (fails = RETRY_LIMIT) as ->.
    { destruct (decide (fails < RETRY_LIMIT)%nat) as [Hlt|]; [|lia].
      destruct (Hf (requests w + fails)%nat) as [e He].
      rewrite (Hres Hlt) in He. discriminate. }
    split; [by apply Hall|]. rewrite Hreq.
    rewrite decide_False by lia. lia.
Qed.

Lemma slept_total_app (tr tr' : list Event) :
  (slept_total (tr ++ tr') == slept_total tr + slept_total tr')%Q.
Proof.
  induction tr as [|e tr IH]; simpl.
  - by rewrite Qplus_0_l.
  - destruct e; try exact IH. rewrite IH. by rewrite Qplus_assoc.
Qed.

(** X12.  One call sleeps at most 15 seconds in all (1.5 + 3 + 4.5 + 6), and
    it sleeps less only if an attempt succeeds. *)
Theorem translate_batch_sleeps_at_most_15 texts session w :
  (slept_total (trace (libretranslate_translate_batch texts session w).2)
   <= slept_total (trace w) + 15)%Q
  ∧ ((slept_total (trace (libretranslate_translate_batch texts session w).2)
      < slept_total (trace w) + 15)%Q →
     ∃ k, (k < RETRY_LIMIT)%nat
          ∧ try_body (session (requests w + k)%nat texts) texts
            = inr (libretranslate_translate_batch texts session w).1).
Proof.
  unfold libretranslate_translate_batch.
  destruct (attempt_loop_spec session texts (seq 1 RETRY_LIMIT) w)
    as (fails & Hle & _ & Htr & _ & Hres & _).
  rewrite length_seq in *. rewrite Htr, slept_total_app.
  unfold RETRY_LIMIT in *.
  destruct fails as [|[|[|[|[|fails]]]]]; [..|lia]; simpl; split.
  all: try (apply Qplus_le_r; vm_compute; discriminate).
  all: try (intros _; eexists; split; [|apply Hres; lia]; lia).
  intros Hlt. exfalso. apply Qplus_lt_r in Hlt. vm_compute in Hlt. discriminate.
Qed.


(** ** The whole run: requests, what is left alone, what is written *)

Lemma translate_docx_world fuel session all_paras doc w r :
  translate_docx fuel session all_paras doc w = Some r →
  run_world r = (translate_batches session (run_batches r) ∅ w).2.
Proof.
  unfold translate_docx.
  destruct (batcher fuel _ _ _) as [bs|]; [|discriminate]. simpl.
  destruct (translate_batches session bs ∅ w) as [accum w'] eqn:E.
  intros [= <-]. simpl. by rewrite E.
Qed.

(** ** The requests of each batch *)

Lemma posted_app (tr tr' : list Event) : posted (tr ++ tr') = posted tr ++ posted tr'.
Proof. apply omap_app. Qed.

Lemma posted_failed_attempts texts (attempts : list nat) :
  posted (concat (failed_attempt texts <$> attempts))
  = replicate (length attempts) texts.
Proof.
  induction attempts as [|a attempts IH]; [done|].
  rewrite fmap_cons. cbn [concat length replicate].
  by rewrite posted_app, IH.
Qed.

(** One call of the client leaves a segment in the trace with at least one
    and at most [RETRY_LIMIT] requests, each posting the texts of the call. *)
Lemma translate_batch_posts texts session w :
  ∃ seg (n : nat),
    trace (libretranslate_translate_batch texts session w).2 = trace w ++ seg
    ∧ (1 ≤ n ≤ RETRY_LIMIT)%nat
    ∧ posted seg = replicate n texts
    ∧ requests (libretranslate_translate_batch texts session w).2
      = (requests w + n)%nat.
Proof.
  unfold libretranslate_translate_batch.
  destruct (attempt_loop_spec session texts (seq 1 RETRY_LIMIT) w)
    as (fails & Hle & _ & Htr & Hreq & _).
  rewrite length_seq in *.
  eexists _, (if decide (fails < RETRY_LIMIT)%nat then S fails else RETRY_LIMIT).
  split; [exact Htr|]. split; [case_decide; unfold RETRY_LIMIT in *; lia|].
  split.
  - rewrite posted_app, posted_failed_attempts, length_take, length_seq.
    case_decide.
    + rewrite Nat.min_l by lia.
      replace (S fails) with (fails + 1)%nat by lia. by rewrite replicate_add.
    + change (posted [Errored]) with (@nil (list (list N))).
      rewrite app_nil_r. f_equal. lia.
  - rewrite Hreq. unfold RETRY_LIMIT in *. case_decide; lia.
Qed.

Lemma translate_batches_posts session batches accum w :
  ∃ segs : list (list Event),
    trace (translate_batches session batches accum w).2 = trace w ++ concat segs
    ∧ Forall2 (λ b seg, ∃ n : nat, (1 ≤ n ≤ RETRY_LIMIT)%nat
                         ∧ posted seg = replicate n (text_or_empty <$> b))
        batches segs
    ∧ requests (translate_batches session batches accum w).2
      = (requests w + length (posted (concat segs)))%nat.
Proof.
  revert accum w. induction batches as [|b batches IH]; intros accum w; simpl.
  { exists []. simpl. rewrite app_nil_r. split; [done|]. split; [constructor|lia]. }
  destruct (translate_batch_posts (text_or_empty <$> b) session w)
    as (seg & n & Htr & Hn & Hseg & Hreq).
  destruct (libretranslate_translate_batch _ _ _) as [translated_list w'].
  simpl in Htr, Hreq.
  destruct (IH (foldl accum_append accum (zip b translated_list)) w')
    as (segs & Htr' & Hsegs & Hreq').
  exists (seg :: segs). split; [|split].
  - rewrite Htr', Htr. simpl. by rewrite app_assoc.
  - constructor; [by exists n | done].
  - rewrite Hreq', Hreq. simpl. rewrite posted_app, length_app, Hseg, length_replicate.
    lia.
Qed.

(** X13.  A run posts at least one request for each batch and at most
    [RETRY_LIMIT] for each: the trace of the run is one segment for each
    batch, in the order of the batches, and the requests posted in the
    segment of a batch are between one and [RETRY_LIMIT], each with the texts
    of that batch.  The request counter counts them. *)
Theorem run_requests_bounded fuel session all_paras doc w :
  Forall (λ u, len (text_or_empty u) < Z.of_nat fuel) all_paras →
  ∃ r (segs : list (list Event)),
    translate_docx fuel session all_paras doc w = Some r
    ∧ trace (run_world r) = trace w ++ concat segs
    ∧ Forall2 (λ b seg, ∃ n : nat, (1 ≤ n ≤ RETRY_LIMIT)%nat
                         ∧ posted seg = replicate n (text_or_empty <$> b))
        (run_batches r) segs
    ∧ requests (run_world r) = (requests w + length (posted (concat segs)))%nat.
Proof.
  intros Hfuel.
  destruct (translate_docx_total fuel session all_paras doc w Hfuel) as [r Hr].
  destruct (translate_batches_posts session (run_batches r) ∅ w)
    as (segs & Htr & Hsegs & Hreq).
  exists r, segs. split; [done|].
  by rewrite (translate_docx_world _ _ _ _ _ _ Hr).
Qed.

Lemma run_requests_bounded_witness :
  ∃ r (segs : list (list Event)),
    translate_docx 2 unreachable [unit_a; unit_b] ∅ w0 = Some r
    ∧ trace (run_world r) = trace w0 ++ concat segs
    ∧ Forall2 (λ b seg, ∃ n : nat, (1 ≤ n ≤ RETRY_LIMIT)%nat
                         ∧ posted seg = replicate n (text_or_empty <$> b))
        (run_batches r) segs
    ∧ requests (run_world r) = (requests w0 + length (posted (concat segs)))%nat.
Proof.
  apply (run_requests_bounded 2 unreachable [unit_a; unit_b] ∅ w0).
  repeat constructor; vm_compute; reflexivity.
Defined.

(** The requests of a run against a service that cannot be reached: the one
    batch is posted [RETRY_LIMIT] times. *)
Example run_requests_unreachable :
  ∃ r, translate_docx 2 unreachable [unit_a; unit_b] ∅ w0 = Some r
       ∧ run_batches r = [[unit_a; unit_b]]
       ∧ posted (trace (run_world r)) = replicate 4 [[97%N]; [98%N]]
       ∧ requests (run_world r) = 4%nat.
Proof. eexists. split; [reflexivity|]. by vm_compute. Qed.

(** X14.  Whatever the service does: the texts of the paragraphs of no
    non-blank unit are left as they were; a key gets into [accum] only for
    the paragraph of a non-blank unit; and the paragraphs committed are, in
    order, among those of the non-blank units. *)
Theorem run_touches_only_non_blank fuel session all_paras doc w :
  Forall (λ u, len (text_or_empty u) < Z.of_nat fuel) all_paras →
  ∃ r, translate_docx fuel session all_paras doc w = Some r
       ∧ (∀ p : Paragraph,
            p ∉ paragraph <$> filter not_blank all_paras →
            run_doc r !! p = doc !! p ∧ run_accum r !! obj_id p = None)
       ∧ (run_commits r).*1 `sublist_of` paragraph <$> filter not_blank all_paras.
Proof.
  intros Hfuel.
  destruct (translate_docx_total fuel session all_paras doc w Hfuel) as [r Hr].
  exists r. split; [done|].
  destruct (translate_docx_Some _ _ _ _ _ _ Hr) as (Hbs & _ & Hcom & Hdoc).
  split; [|rewrite Hcom; apply commits_sublist].
  intros p Hp.
  assert (Hnone : run_accum r !! obj_id p = None).
  { rewrite (run_accum_lookup _ _ _ _ _ _ p Hr).
    destruct (arrivals_at p _) as [|[x t] arr] eqn:Earr; [done|]. exfalso.
    assert (Hin : (x, t) ∈ arrivals_at p (arrivals session (run_batches r) w)).
    { rewrite Earr. apply list_elem_of_here. }
    apply list_elem_of_filter in Hin as [Hpx Hin]. simpl in Hpx.
    assert (Hx : x ∈ concat (run_batches r)).
    { apply (arrivals_fst_subseteq session _ w).
      apply list_elem_of_fmap. by exists (x, t). }
    destruct (batch_items_from_non_blank _ _ _ _ _ _ Hbs Hx) as (it & Hit & _ & Heq).
    apply Hp. rewrite <- Hpx, Heq. by apply list_elem_of_fmap_2. }
  split; [|done]. by rewrite Hdoc, Hnone.
Qed.

Lemma run_touches_only_non_blank_witness :
  ∃ r, translate_docx 2 (translating reverse)
         [unit_a; mkParaRef 9 (Some [32%N])] {[ 9 := [32%N] ]} w0 = Some r
       ∧ (∀ p : Paragraph,
            p ∉ paragraph <$> filter not_blank [unit_a; mkParaRef 9 (Some [32%N])] →
            run_doc r !! p = ({[ 9 := [32%N] ]} : gmap Z (list N)) !! p
            ∧ run_accum r !! obj_id p = None)
       ∧ (run_commits r).*1
         `sublist_of` paragraph <$> filter not_blank [unit_a; mkParaRef 9 (Some [32%N])].
Proof.
  apply (run_touches_only_non_blank 2 (translating reverse)
           [unit_a; mkParaRef 9 (Some [32%N])] {[ 9 := [32%N] ]} w0).
  repeat constructor; vm_compute; reflexivity.
Defined.

(** X15.  A document without a non-blank unit: no request is posted,
    nothing is committed and no text changes. *)
Theorem run_without_units fuel session all_paras doc w :
  Forall (λ u, _is_blank (original_text u) = true) all_paras →
  translate_docx fuel session all_paras doc w = Some (mkRun [] ∅ doc [] w).
Proof.
  intros Hall. unfold translate_docx.
  assert (filter not_blank all_paras = []) as ->.
  { induction Hall as [|u us Hu _ IH]; [done|].
    rewrite filter_cons, decide_False; [done|]. unfold not_blank. by rewrite Hu. }
  reflexivity.
Qed.

Lemma run_without_units_witness :
  translate_docx 0 unreachable [mkParaRef 1 None; mkParaRef 2 (Some [32; 10]%N)] ∅ w0
  = Some (mkRun [] ∅ ∅ [] w0).
Proof.
  apply (run_without_units 0 unreachable
           [mkParaRef 1 None; mkParaRef 2 (Some [32; 10]%N)] ∅ w0).
  repeat constructor.
Defined.


(** ** The whole run with a service that translates text by text *)

Lemma while_chunks_items fuel p txt n max_total_chars start chunks :
  while_chunks fuel p txt n max_total_chars start = Some chunks →
  Forall (λ b, ∃ c, b = chunk_batch p c) chunks.
Proof.
  revert start chunks. induction fuel as [|fuel IH]; intros start chunks; simpl; [done|].
  destruct (start <? n); [|by intros [= <-]].
  destruct (while_chunks fuel _ _ _ _ _) as [rest|] eqn:E; [|done].
  intros [= <-]. constructor; [by eexists|]. by eapply IH.
Qed.

Lemma pieces_at_limit_paragraph fuel max_total_chars it ps :
  pieces_at_limit fuel max_total_chars it ps →
  Forall (λ x, paragraph x = paragraph it) ps.
Proof.
  unfold pieces_at_limit. destruct (_ >? _).
  - intros H%while_chunks_items. rewrite Forall_fmap in H.
    eapply Forall_impl; [exact H|]. simpl. by intros x [c [= ->]].
  - intros ->. by constructor.
Qed.

Lemma filter_all {A} (P : A → Prop) `{!∀ x, Decision (P x)} (l : list A) :
  Forall P l → filter P l = l.
Proof.
  induction 1 as [|x l Hx _ IH]; [done|].
  by rewrite filter_cons, decide_True, IH.
Qed.

Lemma filter_none {A} (P : A → Prop) `{!∀ x, Decision (P x)} (l : list A) :
  Forall (λ x, ¬ P x) l → filter P l = [].
Proof.
  induction 1 as [|x l Hx _ IH]; [done|].
  by rewrite filter_cons, decide_False.
Qed.

Lemma pieces_at_limit_unit fuel max_total_chars (units : list ParaRef) pss u :
  Forall2 (pieces_at_limit fuel max_total_chars) units pss →
  NoDup (paragraph <$> units) → u ∈ units →
  ∃ ps, pieces_at_limit fuel max_total_chars u ps
        ∧ filter (λ x, paragraph x = paragraph u) (concat pss) = ps.
Proof.
  induction 1 as [|v ps units pss Hp Hrest IH]; simpl.
  - by intros _ ?%elem_of_nil.
  - intros [Hnin Hnd]%NoDup_cons Hin. rewrite filter_app.
    pose proof (pieces_at_limit_paragraph _ _ _ _ Hp) as Hpar.
    apply elem_of_cons in Hin as [->|Hin].
    + exists ps. split; [done|].
      rewrite (filter_all _ ps) by done.
      rewrite filter_none; [by rewrite app_nil_r|].
      apply Forall_forall. intros x Hx Heq.
      clear IH. induction Hrest as [|v' ps' units' pss' Hp' _ IH']; simpl in Hx.
      * by apply elem_of_nil in Hx.
      * apply not_elem_of_cons in Hnin as [Hne Hnin].
        apply NoDup_cons in Hnd as [_ Hnd].
        apply elem_of_app in Hx as [Hx|Hx]; [|by apply IH'].
        pose proof (pieces_at_limit_paragraph _ _ _ _ Hp') as Hpar'.
        rewrite Forall_forall in Hpar'. specialize (Hpar' x Hx). congruence.
    + destruct (IH Hnd Hin) as (ps' & Hps' & Hfilter). exists ps'.
      split; [done|]. rewrite Hfilter, filter_none; [done|].
      eapply Forall_impl; [exact Hpar|]. simpl. intros x Hx Heq.
      apply Hnin. rewrite <- Hx, Heq. by apply list_elem_of_fmap_2.
Qed.

Section translating.
Context (session : Session) (f : list N → list N).
Context (Hf : ∀ texts w, (libretranslate_translate_batch texts session w).1
                         = f <$> texts).

Lemma arrivals_translated batches w :
  arrivals session batches w
  = (λ x, (x, f (text_or_empty x))) <$> concat batches.
Proof using Hf.
  revert w. induction batches as [|b batches IH]; intros w; simpl; [done|].
  pose proof (Hf (text_or_empty <$> b) w) as Hb.
  destruct (libretranslate_translate_batch _ _ _) as [translated_list w'].
  simpl in Hb. subst translated_list.
  rewrite fmap_app, IH, <- list_fmap_compose. by rewrite zip_fmap_self.
Qed.

Lemma arrivals_at_translated (p : Paragraph) (items : list ParaRef) :
  (arrivals_at p ((λ x, (x, f (text_or_empty x))) <$> items)).*2
  = f ∘ text_or_empty <$> filter (λ x, paragraph x = p) items.
Proof.
  unfold arrivals_at. induction items as [|x items IH]; [done|].
  rewrite fmap_cons, !filter_cons. cbn [fst].
  destruct (decide (paragraph x = p)); [rewrite !fmap_cons; cbn [snd]|];
    by rewrite IH.
Qed.

(** What the run does for one unit, when no other non-blank unit is at its
    paragraph: the entry holds the translations of its pieces and the text
    saved is their concatenation. *)
Lemma run_translates_pieces fuel all_paras doc w r u :
  NoDup (paragraph <$> filter not_blank all_paras) →
  translate_docx fuel session all_paras doc w = Some r →
  u ∈ all_paras → not_blank u →
  ∃ ps, pieces_at_limit fuel MAX_TOTAL_CHARS_PER_BATCH u ps
        ∧ run_accum r !! obj_id (paragraph u) = Some (f ∘ text_or_empty <$> ps)
        ∧ run_doc r !! paragraph u = Some (concat (f ∘ text_or_empty <$> ps)).
Proof using Hf.
  intros Hnd Hr Hin Hnb.
  assert (Hu : u ∈ filter not_blank all_paras) by by apply list_elem_of_filter.
  destruct (translate_docx_Some _ _ _ _ _ _ Hr) as (Hbs & _ & _ & Hdoc).
  apply batcher_loop_flatten_exact in Hbs as (pss & Hpss & Hcat). simpl in Hcat.
  rewrite filter_not_blank_idemp in Hpss.
  destruct (pieces_at_limit_unit _ _ _ _ u Hpss Hnd Hu) as (ps & Hps & Hfilter).
  exists ps. split; [done|].
  assert (Hne : ps ≠ []).
  { unfold pieces_at_limit in Hps.
    destruct (Z.gtb_spec (len (text_or_empty u)) MAX_TOTAL_CHARS_PER_BATCH);
      [|by subst ps].
    intros ->. destruct fuel as [|fuel']; [done|]. simpl in Hps.
    pose proof (not_blank_has_text u Hnb) as [_ Hpos].
    destruct (Z.ltb_spec 0 (len (text_or_empty u))); [|lia].
    by destruct (while_chunks fuel' _ _ _ _ _). }
  assert (Hacc : run_accum r !! obj_id (paragraph u)
                 = Some (f ∘ text_or_empty <$> ps)).
  { rewrite (run_accum_lookup _ _ _ _ _ _ (paragraph u) Hr).
    rewrite arrivals_translated, Hcat.
    pose proof (arrivals_at_translated (paragraph u) (concat pss)) as Hat.
    rewrite Hfilter in Hat.
    destruct (arrivals_at _ _) as [|a arr]; [|by rewrite <- Hat].
    simpl in Hat. destruct ps; [done|discriminate]. }
  split; [done|]. rewrite Hdoc, Hacc.
  by rewrite decide_True by by apply list_elem_of_fmap_2.
Qed.

End translating.

(** X16.  With a service that translates each text by [f], and no two
    non-blank units at one paragraph: the text saved for a non-blank unit is
    the concatenation of the translations of its chunks, where the chunks
    are the slices of [MAX_TOTAL_CHARS_PER_BATCH] characters of its text; for
    a unit that is not longer than that, it is the translation of its text.
    A long text is translated chunk by chunk, not as a whole. *)
Theorem run_translates_chunkwise fuel session (f : list N → list N)
    all_paras doc w u :
  (∀ texts w', (libretranslate_translate_batch texts session w').1 = f <$> texts) →
  NoDup (paragraph <$> filter not_blank all_paras) →
  Forall (λ u, len (text_or_empty u) < Z.of_nat fuel) all_paras →
  u ∈ all_paras → not_blank u →
  ∃ r (chunks : list (list N)),
    translate_docx fuel session all_paras doc w = Some r
    ∧ concat chunks = text_or_empty u
    ∧ (∀ (i : nat) c, chunks !! i = Some c →
         c = slice (text_or_empty u)
               (Z.of_nat i * MAX_TOTAL_CHARS_PER_BATCH)
               ((Z.of_nat i + 1) * MAX_TOTAL_CHARS_PER_BATCH))
    ∧ (len (text_or_empty u) ≤ MAX_TOTAL_CHARS_PER_BATCH →
       chunks = [text_or_empty u])
    ∧ run_accum r !! obj_id (paragraph u) = Some (f <$> chunks)
    ∧ run_doc r !! paragraph u = Some (concat (f <$> chunks)).
Proof.
  intros Hf Hnd Hfuel Hin Hnb.
  destruct (translate_docx_total fuel session all_paras doc w Hfuel) as [r Hr].
  destruct (run_translates_pieces session f Hf _ _ _ _ _ u Hnd Hr Hin Hnb)
    as (ps & Hps & Hacc & Hdoc).
  exists r, (text_or_empty <$> ps). rewrite <- !list_fmap_compose.
  split; [done|]. unfold pieces_at_limit in Hps.
  destruct (Z.gtb_spec (len (text_or_empty u)) MAX_TOTAL_CHARS_PER_BATCH) as [Hgt|Hle].
  - assert (Hmc : 0 < MAX_TOTAL_CHARS_PER_BATCH) by done.
    destruct (while_chunks_sound _ _ _ _ _ _ Hmc (Z.le_refl 0) Hps)
      as (cs & Hcs & Hcat & _ & _ & Hnth).
    assert (ps = (λ c, mkParaRef (paragraph u) (Some c)) <$> cs) as ->.
    { revert Hcs. clear. revert cs.
      induction ps as [|x ps IH]; intros [|c cs]; try done.
      rewrite !fmap_cons. intros [= -> Hrest]. f_equal. by apply IH. }
    rewrite <- list_fmap_compose.
    assert (Hid : text_or_empty ∘ (λ c, mkParaRef (paragraph u) (Some c)) <$> cs = cs).
    { clear. induction cs as [|c cs IH]; [done|]. rewrite fmap_cons. by f_equal. }
    rewrite Hid. split; [done|]. split; [|split; [lia|done]].
    intros i c Hc. destruct (Hnth i c Hc) as (-> & _). f_equal; lia.
  - subst ps. simpl. split; [by rewrite app_nil_r|]. split; [|done].
    intros [|i] c; simpl; [|by rewrite lookup_nil].
    intros [= <-].
    transitivity (slice (text_or_empty u) 0 (0 + MAX_TOTAL_CHARS_PER_BATCH));
      [|reflexivity].
    rewrite (slice_take_drop _ 0) by done.
    change (Z.to_nat 0) with 0%nat. rewrite drop_0, take_ge; [done|].
    unfold len in Hle. lia.
Qed.

Lemma run_translates_chunkwise_witness :
  ∃ r (chunks : list (list N)),
    translate_docx 11 (translating reverse) [unit_a; unit_halo] ∅ w0 = Some r
    ∧ concat chunks = text_or_empty unit_halo
    ∧ (∀ (i : nat) c, chunks !! i = Some c →
         c = slice (text_or_empty unit_halo)
               (Z.of_nat i * MAX_TOTAL_CHARS_PER_BATCH)
               ((Z.of_nat i + 1) * MAX_TOTAL_CHARS_PER_BATCH))
    ∧ (len (text_or_empty unit_halo) ≤ MAX_TOTAL_CHARS_PER_BATCH →
       chunks = [text_or_empty unit_halo])
    ∧ run_accum r !! obj_id (paragraph unit_halo) = Some (reverse <$> chunks)
    ∧ run_doc r !! paragraph unit_halo = Some (concat (reverse <$> chunks)).
Proof.
  apply (run_translates_chunkwise 11 (translating reverse) reverse
           [unit_a; unit_halo] ∅ w0 unit_halo).
  - intros texts w'. unfold libretranslate_translate_batch. simpl.
    by rewrite <- list_fmap_compose.
  - apply (bool_decide_unpack _). vm_compute. exact I.
  - repeat constructor; vm_compute; reflexivity.
  - apply list_elem_of_further, list_elem_of_here.
  - reflexivity.
Defined.


(** ** Blank texts, the unchanged document, and tables *)

(** X1.  [_is_blank] is true exactly for [None] and for the strings of
    whitespace only (the empty string among them). *)
Theorem is_blank_iff_none_or_whitespace (o : option (list N)) :
  _is_blank o = true ↔
  o = None ∨ ∃ s, o = Some s ∧ Forall (λ c, isspace c = true) s.
Proof. apply is_blank_spec. Qed.

Lemma pieces_at_limit_text fuel max_total_chars it ps :
  0 < max_total_chars →
  pieces_at_limit fuel max_total_chars it ps →
  concat (text_or_empty <$> ps) = text_or_empty it.
Proof.
  intros Hmc. unfold pieces_at_limit. destruct (_ >? _).
  - intros Hps.
    destruct (while_chunks_sound _ _ _ _ _ _ Hmc (Z.le_refl 0) Hps)
      as (cs & Hcs & Hcat & _).
    change (Z.to_nat 0) with 0%nat in Hcat. rewrite drop_0 in Hcat.
    rewrite <- Hcat. f_equal. revert Hcs. clear. revert cs.
    induction ps as [|x ps IH]; intros [|c cs]; try done.
    rewrite !fmap_cons. intros [= -> Hrest]. simpl. f_equal. by apply IH.
  - intros ->. simpl. by rewrite app_nil_r.
Qed.

(** X17.  When the translation returns its input (as when the service
    cannot be reached), no two non-blank units are at one paragraph and
    [doc] holds the text of every non-blank unit at its paragraph, the run
    leaves all texts as they were: the document saved is the document
    read. *)
Theorem run_identity_keeps_document fuel session all_paras doc w :
  (∀ texts w', (libretranslate_translate_batch texts session w').1 = texts) →
  NoDup (paragraph <$> filter not_blank all_paras) →
  Forall (λ u, len (text_or_empty u) < Z.of_nat fuel) all_paras →
  (∀ u, u ∈ all_paras → not_blank u → doc !! paragraph u = original_text u) →
  ∃ r, translate_docx fuel session all_paras doc w = Some r ∧ run_doc r = doc.
Proof.
  intros Hid Hnd Hfuel Hdoc0.
  destruct (translate_docx_total fuel session all_paras doc w Hfuel) as [r Hr].
  exists r. split; [done|]. apply map_eq. intros p.
  destruct (decide (p ∈ paragraph <$> filter not_blank all_paras)) as [Hp|Hp].
  - apply list_elem_of_fmap in Hp as (u & -> & [Hnb Hin]%list_elem_of_filter).
    assert (Hf : ∀ texts w', (libretranslate_translate_batch texts session w').1
                             = id <$> texts).
    { intros texts w'. by rewrite list_fmap_id. }
    destruct (run_translates_pieces session id Hf _ _ _ _ _ u Hnd Hr Hin Hnb)
      as (ps & Hps & _ & ->).
    rewrite (Hdoc0 u Hin Hnb).
    destruct (not_blank_has_text u Hnb) as [-> _]. f_equal.
    by apply (pieces_at_limit_text fuel MAX_TOTAL_CHARS_PER_BATCH).
  - destruct (translate_docx_Some _ _ _ _ _ _ Hr) as (_ & _ & _ & ->).
    destruct (run_accum r !! obj_id p); [|done]. by rewrite decide_False.
Qed.

Lemma run_identity_keeps_document_witness :
  ∃ r, translate_docx 11 unreachable
         [unit_a; mkParaRef 9 (Some [32%N]); unit_halo]
         {[ 1 := [97%N]; 9 := [32%N]; 2 := halo_dunia ]} w0 = Some r
       ∧ run_doc r = {[ 1 := [97%N]; 9 := [32%N]; 2 := halo_dunia ]}.
Proof.
  apply (run_identity_keeps_document 11 unreachable
           [unit_a; mkParaRef 9 (Some [32%N]); unit_halo]
           {[ 1 := [97%N]; 9 := [32%N]; 2 := halo_dunia ]} w0).
  - exact unreachable_identity.
  - apply (bool_decide_unpack _). vm_compute. exact I.
  - repeat constructor; vm_compute; reflexivity.
  - intros u Hu _.
    repeat (apply elem_of_cons in Hu as [->|Hu]; [reflexivity|]).
    by apply elem_of_nil in Hu.
Defined.

(** Where [iter_all_paragraphs] finds a paragraph object. *)
Lemma iter_all_paragraphs_elem (d : Document) (u : ParaRef) :
  u ∈ iter_all_paragraphs d ↔
  ∃ p, u = ref_of p
       ∧ (p ∈ paragraphs d
          ∨ ∃ table row cell,
              table ∈ tables d ∧ row ∈ rows table ∧ cell ∈ cells row
              ∧ p ∈ cell_paragraphs cell).
Proof.
  unfold iter_all_paragraphs. rewrite elem_of_app, list_elem_of_fmap. split.
  - intros [(p & -> & Hp)|H].
    + exists p. auto.
    + apply list_elem_of_bind in H as (table & H & Ht).
      apply list_elem_of_bind in H as (row & H & Hr).
      apply list_elem_of_bind in H as (cell & H & Hc).
      apply list_elem_of_fmap in H as (p & -> & Hp).
      exists p. split; [done|]. right. by exists table, row, cell.
  - intros (p & -> & [Hp|(table & row & cell & Ht & Hr & Hc & Hp)]).
    + left. by exists p.
    + right. apply list_elem_of_bind. exists table. split; [|done].
      apply list_elem_of_bind. exists row. split; [|done].
      apply list_elem_of_bind. exists cell. split; [|done].
      by apply list_elem_of_fmap_2.
Qed.

(** X18.  Paragraphs in table cells are translated as those of the body:
    with a service that translates each text by [f] and paragraph objects
    that are all distinct, a paragraph of a cell of a row of a table of the
    document, not blank and not longer than [MAX_TOTAL_CHARS_PER_BATCH], ends
    with the translation of its text. *)
Theorem table_paragraphs_are_translated fuel session (f : list N → list N)
    (d : Document) w table row cell p :
  (∀ texts w', (libretranslate_translate_batch texts session w').1 = f <$> texts) →
  NoDup (paragraph <$> iter_all_paragraphs d) →
  Forall (λ u, len (text_or_empty u) < Z.of_nat fuel) (iter_all_paragraphs d) →
  table ∈ tables d → row ∈ rows table → cell ∈ cells row →
  p ∈ cell_paragraphs cell →
  _is_blank (Some (par_text p)) = false →
  len (par_text p) ≤ MAX_TOTAL_CHARS_PER_BATCH →
  ∃ r, translate_docx fuel session (iter_all_paragraphs d) (doc_texts d) w = Some r
       ∧ run_doc r !! par_id p = Some (f (par_text p)).
Proof.
  intros Hf Hnd Hfuel Ht Hr Hc Hp Hnb Hle.
  destruct (translate_docx_total fuel session (iter_all_paragraphs d)
              (doc_texts d) w Hfuel) as [r Hrun].
  exists r. split; [done|].
  assert (Hin : ref_of p ∈ iter_all_paragraphs d).
  { apply iter_all_paragraphs_elem. exists p. split; [done|]. right.
    by exists table, row, cell. }
  assert (Hnd' : NoDup (paragraph <$> filter not_blank (iter_all_paragraphs d))).
  { eapply sublist_NoDup; [exact Hnd|]. apply fmap_sublist, sublist_filter. }
  destruct (run_translates_pieces session f Hf _ _ _ _ _ (ref_of p) Hnd' Hrun Hin Hnb)
    as (ps & Hps & _ & Hdoc).
  unfold pieces_at_limit in Hps.
  change (text_or_empty (ref_of p)) with (par_text p) in Hps.
  destruct (Z.gtb_spec (len (par_text p)) MAX_TOTAL_CHARS_PER_BATCH); [lia|].
  subst ps. simpl in Hdoc. by rewrite app_nil_r in Hdoc.
Qed.

Lemma table_paragraphs_are_translated_witness :
  let p := mkParagraphObj 5 [97; 98]%N in
  let d := mkDocument [mkParagraphObj 1 halo_dunia]
             [mkTable [mkRow [mkCell [mkParagraphObj 4 []; p]]]] in
  ∃ r, translate_docx 11 (translating reverse) (iter_all_paragraphs d)
         (doc_texts d) w0 = Some r
       ∧ run_doc r !! par_id p = Some (reverse (par_text p)).
Proof.
  intros p d.
  apply (table_paragraphs_are_translated 11 (translating reverse) reverse d w0
           (mkTable [mkRow [mkCell [mkParagraphObj 4 []; p]]])
           (mkRow [mkCell [mkParagraphObj 4 []; p]])
           (mkCell [mkParagraphObj 4 []; p]) p).
  - intros texts w'. unfold libretranslate_translate_batch. simpl.
    by rewrite <- list_fmap_compose.
  - apply (bool_decide_unpack _). vm_compute. exact I.
  - repeat constructor; vm_compute; reflexivity.
  - apply list_elem_of_here.
  - apply list_elem_of_here.
  - apply list_elem_of_here.
  - apply list_elem_of_further, list_elem_of_here.
  - reflexivity.
  - vm_compute. discriminate.
Defined.


(** ** Answers that are too long *)

Lemma arrivals_fst_surplus session batches w :
  (∀ texts w', (length texts
                ≤ length (libretranslate_translate_batch texts session w').1)%nat) →
  (arrivals session batches w).*1 = concat batches.
Proof.
  intros Hge. revert w. induction batches as [|b batches IH]; intros w; simpl; [done|].
  specialize (Hge (text_or_empty <$> b) w).
  destruct (libretranslate_translate_batch _ _ _) as [translated_list w'].
  rewrite fmap_app, IH, fst_zip; [done|].
  simpl in Hge. rewrite length_fmap in Hge. lia.
Qed.

(** X19.  When every result is at least as long as its input, every
    non-blank unit is committed: the paragraphs committed are those of the
    non-blank units, in their order.  What an answer has beyond the length
    of the batch is ignored. *)
Theorem run_commits_every_unit fuel session all_paras doc w :
  (∀ texts w', (length texts
                ≤ length (libretranslate_translate_batch texts session w').1)%nat) →
  Forall (λ u, len (text_or_empty u) < Z.of_nat fuel) all_paras →
  ∃ r, translate_docx fuel session all_paras doc w = Some r
       ∧ (run_commits r).*1 = paragraph <$> filter not_blank all_paras.
Proof.
  intros Hge Hfuel.
  destruct (translate_docx_total fuel session all_paras doc w Hfuel) as [r Hr].
  exists r. split; [done|].
  destruct (translate_docx_Some _ _ _ _ _ _ Hr) as (Hbs & _ & -> & _).
  rewrite commits_all.
  - rewrite <- list_fmap_compose. by apply list_fmap_ext.
  - apply Forall_forall. intros u Hu.
    rewrite (run_accum_lookup _ _ _ _ _ _ (paragraph u) Hr).
    destruct (arrivals_at _ _) as [|a arr] eqn:Earr; [|by eexists]. exfalso.
    apply batcher_flatten in Hbs as (pss & Hpss & Hcat).
    rewrite filter_not_blank_idemp in Hpss.
    destruct (pieces_at_units (paragraph u) _ _ Hpss) as [_ Hnil].
    assert (Harr : filter (λ x, paragraph x = paragraph u) (concat pss) = []).
    { rewrite <- Hcat, <- (arrivals_fst_surplus session _ w Hge), <- arrivals_at_fst.
      by rewrite Earr. }
    assert (Hin : u ∈ units_at (paragraph u) (filter not_blank all_paras)).
    { by apply list_elem_of_filter. }
    rewrite (proj1 Hnil Harr) in Hin. by apply elem_of_nil in Hin.
Qed.

(** A service that answers every request with one string more than asked. *)
Lemma run_commits_every_unit_witness :
  let session : Session :=
    λ _ texts, Data (TTList (JString <$> (texts ++ [[33%N]]))) in
  ∃ r, translate_docx 2 session [unit_a; mkParaRef 9 None; unit_b] ∅ w0 = Some r
       ∧ (run_commits r).*1
         = paragraph <$> filter not_blank [unit_a; mkParaRef 9 None; unit_b].
Proof.
  intros session.
  apply (run_commits_every_unit 2 session [unit_a; mkParaRef 9 None; unit_b] ∅ w0).
  - intros texts w'. unfold libretranslate_translate_batch. simpl.
    rewrite !length_fmap, length_app. lia.
  - repeat constructor; vm_compute; reflexivity.
Defined.
